(** * scripts/assemble.py: partition-aware image assembly

    A shallow embedding of [scripts/assemble.py] (mcuboot), the script that
    glues a bootloader and one or two signed application images into one
    flashable binary, and the properties its specification states about it.

    Python dicts are [gmap string Z], byte strings are [list byte], Python
    integers are [Z].  The file system the script works on is an explicit
    state threaded through a small state-and-exception monad. *)

From Stdlib Require Import ZArith Init.Byte Ascii.
From stdpp Require Import gmap strings list fin_maps sorting.

Local Open Scope Z_scope.

(** ** Exceptions *)

(** The exceptions the script can end with.  [Exception] is the generic class
    the script raises with a message; [KeyError] and [IndexError] come from
    subscripting; [OSError] (of which [IOError] is an alias in Python 3)
    carries the errno of a failed system call. *)
Inductive exn : Type :=
  | Exception (msg : string)
  | KeyError (key : string)
  | IndexError
  | OSError (errno : Z).

(** The specification's error taxonomy, read off the raise sites. *)
Definition ConsistencyError : exn :=
  Exception "Inconsistent data in devicetree.h".
Definition MissingPartitionError (name : string) : exn :=
  Exception ("Board partition table does not have " +:+ name +:+ " partition").
Definition OutOfOrderError : exn :=
  Exception "Partitions not in order, unsupported".
Definition OversizedImageError (source : string) : exn :=
  Exception ("Image " +:+ source +:+ " is too large for partition").
Definition UnknownPartitionError (name : string) : exn := KeyError name.

(** ** The operating system *)

Module OS.

(** Reasons for which unlink(2) refuses to remove a directory entry.  A
    missing entry is not among them: it is reported as [ENOENT] exactly
    when the path names no file. *)
Inductive fault : Type := EPERM | EIO | EACCES | EBUSY | EISDIR | EROFS.

Definition ENOENT : Z := 2.

Definition errno_of (f : fault) : Z :=
  match f with
  | EPERM => 1 | EIO => 5 | EACCES => 13
  | EBUSY => 16 | EISDIR => 21 | EROFS => 30
  end.

(** [files] maps a path to the content of the regular file there;
    [unlink_fault] records the paths whose removal the system refuses. *)
Record World : Type := mkWorld {
  files : gmap string (list byte);
  unlink_fault : gmap string fault
}.

Definition set_files (w : World) (fs : gmap string (list byte)) : World :=
  {| files := fs; unlink_fault := unlink_fault w |}.

(** os.unlink(path): the errno on failure, the new world on success. *)
Definition unlink (path : string) (w : World) : Z + World :=
  match unlink_fault w !! path with
  | Some f => inl (errno_of f)
  | None =>
      match files w !! path with
      | None => inl ENOENT
      | Some _ => inr (set_files w (delete path (files w)))
      end
  end.

(** The bytes of the file at [path]; none when there is no file. *)
Definition content (w : World) (path : string) : list byte :=
  default [] (files w !! path).

(** posixpath.join for two components. *)
Definition ends_with_sep (s : string) : bool :=
  String.eqb (String.substring (String.length s - 1)%nat 1 s) "/".

Definition path_join (path b : string) : string :=
  if String.prefix "/" b then b
  else if bool_decide (path = "") || ends_with_sep path then path +:+ b
  else path +:+ "/" +:+ b.

End OS.

Import OS.

(** ** Computations: state and exceptions

    A computation takes the world and gives back either an exception or a
    value, together with the world as it stands then: what was written before
    an exception stays written. *)
Definition IO (A : Type) : Type := World → (exn + A) * World.

Definition ret {A} (a : A) : IO A := λ w, (inr a, w).
Definition raise {A} (e : exn) : IO A := λ w, (inl e, w).
Definition bind {A B} (c : IO A) (k : A → IO B) : IO B :=
  λ w, match c w with
       | (inl e, w') => (inl e, w')
       | (inr a, w') => k a w'
       end.

#[export] Instance IO_ret : MRet IO := @ret.
#[export] Instance IO_bind : MBind IO := λ A B k c, bind c k.

(** d[key] on a dict. *)
Definition getitem (d : gmap string Z) (key : string) : IO Z :=
  match d !! key with
  | Some v => ret v
  | None => raise (KeyError key)
  end.

(** open(path, 'ab'): creates the file when there is none; the position of
    the new handle is the end of the file.  Writes through the handle are
    modelled as reaching the file at once; the buffer that Python puts in
    front of it is emptied when the [with] block is left, on every path, so
    the two can be told apart only by a read of the artifact itself while the
    block is open, that is, when a source path names the artifact. *)
Definition open_append (path : string) : IO unit :=
  λ w, match files w !! path with
       | Some _ => (inr (), w)
       | None => (inr (), set_files w (<[path := []]> (files w)))
       end.

(** ofd.tell() on a handle opened for appending. *)
Definition tell (path : string) : IO Z :=
  λ w, (inr (Z.of_nat (length (content w path))), w).

(** ofd.write(buf) on a handle opened for appending: always at the end. *)
Definition write (path : string) (buf : list byte) : IO unit :=
  λ w, (inr (), set_files w (<[path := content w path ++ buf]> (files w))).

(** open(path, 'rb').read() *)
Definition read_all (path : string) : IO (list byte) :=
  λ w, match files w !! path with
       | Some data => (inr data, w)
       | None => (inl (OSError ENOENT), w)
       end.

(** ** same_keys *)

(** [k in d] *)
Definition contains {A} (d : gmap string A) (k : string) : bool :=
  bool_decide (is_Some (d !! k)).

(** One of the two loops of [same_keys]: stop with [False] at the first key
    that [b] lacks. *)
Fixpoint keys_in {A} (ks : list string) (b : gmap string A) : bool :=
  match ks with
  | [] => true
  | ak :: ks' => if negb (contains b ak) then false else keys_in ks' b
  end.

(** d.keys().  A dict lists its keys in the order they were put in; the
    verdict of [same_keys] does not depend on the order. *)
Definition keys {A} (d : gmap string A) : list string := (map_to_list d).*1.

Definition same_keys {A B} (a : gmap string A) (b : gmap string B) : bool :=
  if negb (keys_in (keys a) b) then false
  else if negb (keys_in (keys b) a) then false
  else true.

(** try: c / except X as e: h e.  The handler sees the world as the failed
    computation left it. *)
Definition catch {A} (c : IO A) (h : exn → IO A) : IO A :=
  λ w, match c w with
       | (inl e, w') => h e w'
       | (inr a, w') => (inr a, w')
       end.

(** os.unlink(path) as a computation. *)
Definition os_unlink (path : string) : IO unit :=
  λ w, match OS.unlink path w with
       | inl errno => (inl (OSError errno), w)
       | inr w' => (inr (), w')
       end.

(** A computation that does not touch the world. *)
Definition lift {A} (r : exn + A) : IO A :=
  match r with
  | inl e => raise e
  | inr a => ret a
  end.

(** ** The devicetree, as far as the script reads it

    [edtlib] belongs to Zephyr, not to this repository: it is the
    specification's partition-description provider.  These records hold what
    [find_slots] reads of an [EDT] object: for each node of a compatible, the
    values of its [children] dict in order; for each child, the value of its
    "label" property when it has one, and its registers, each an (address,
    size) region. *)
Record Register : Type := { reg_addr : Z; reg_size : Z }.
Record Node : Type := { label : option string; regs : list Register }.
Record PartNode : Type := { children : list Node }.
Record EDT : Type := { compat2nodes : gmap string (list PartNode) }.

(** ** class Assembly *)

Record PartitionMap : Type := {
  offsets : gmap string Z;
  sizes : gmap string Z
}.

Record Assembly : Type := {
  slots : PartitionMap;
  output : string
}.

(** The body of the inner loop of [find_slots] (lines 62-65). *)
Definition add_child (pm : PartitionMap) (child : Node) : exn + PartitionMap :=
  match label child with
  | Some l =>
      match regs child with
      | r :: _ => inr {| offsets := <[l := reg_addr r]> (offsets pm);
                         sizes := <[l := reg_size r]> (sizes pm) |}
      | [] => inl IndexError
      end
  | None => inr pm
  end.

Fixpoint add_children (pm : PartitionMap) (cs : list Node) : exn + PartitionMap :=
  match cs with
  | [] => inr pm
  | child :: cs' =>
      match add_child pm child with
      | inl e => inl e
      | inr pm' => add_children pm' cs'
      end
  end.

Fixpoint add_nodes (pm : PartitionMap) (ns : list PartNode) : exn + PartitionMap :=
  match ns with
  | [] => inr pm
  | node :: ns' =>
      match add_children pm (children node) with
      | inl e => inl e
      | inr pm' => add_nodes pm' ns'
      end
  end.

(** Lines 56-65 of [find_slots]: the two dicts read off the devicetree.
    [compat2nodes] is a defaultdict: a compatible nobody has gives []. *)
Definition read_slots (edt : EDT) : exn + PartitionMap :=
  add_nodes {| offsets := ∅; sizes := ∅ |}
            (default [] (compat2nodes edt !! "fixed-partitions")).

(** Lines 67-81 of [find_slots]: the checks on the two dicts, and what is
    stored in [self] when they pass. *)
Definition check_slots (offsets sizes : gmap string Z) (is_secondary : bool)
  : exn + PartitionMap :=
  if negb (same_keys offsets sizes) then inl ConsistencyError
  else if negb (contains offsets "mcuboot") then
    inl (MissingPartitionError "mcuboot")
  else if negb (contains offsets "image-0") then
    inl (MissingPartitionError "image-0")
  else if negb (contains offsets "image-1") && is_secondary then
    inl (MissingPartitionError "image-1")
  else inr {| offsets := offsets; sizes := sizes |}.

Definition find_slots (edt : EDT) (is_secondary : bool) : exn + PartitionMap :=
  match read_slots edt with
  | inl e => inl e
  | inr pm => check_slots (offsets pm) (sizes pm) is_secondary
  end.

(** Assembly.__init__ *)
Definition init (output bootdir : string) (is_secondary : bool) (edt : EDT)
  : IO Assembly :=
  pm ← lift (find_slots edt is_secondary);
  catch (os_unlink output)
        (λ e, match e with
              | OSError errno =>
                  if bool_decide (errno ≠ ENOENT) then raise e else ret ()
              | _ => raise e
              end);;
  mret {| slots := pm; output := output |}.

(** b'\xFF' * n *)
Definition padding (n : Z) : list byte := replicate (Z.to_nat n) xff.

(** Assembly.add_image.  The [print] call is left out but for the lookup
    [self.offsets[partition]] it makes before anything is compared. *)
Definition add_image (self : Assembly) (source partition : string) : IO unit :=
  open_append (output self);;
  pos ← tell (output self);
  offset ← getitem (offsets (slots self)) partition;
  (if bool_decide (pos > offset) then raise OutOfOrderError else mret ());;
  (if bool_decide (pos < offset)
   then write (output self) (padding (offset - pos))
   else mret ());;
  ibuf ← read_all source;
  size ← getitem (sizes (slots self)) partition;
  (if bool_decide (Z.of_nat (length ibuf) > size)
   then raise (OversizedImageError source)
   else mret ());;
  write (output self) ibuf.

(** The command line after parsing. *)
Record Args : Type := {
  arg_bootdir : string;
  arg_primary : string;
  arg_secondary : option string;
  arg_output : string
}.

(** [main] from line 140 on: the assembly itself, given the parsed command
    line and the unpickled devicetree. *)
Definition main (args : Args) (edt : EDT) : IO unit :=
  let is_secondary := bool_decide (arg_secondary args ≠ None) in
  out ← init (arg_output args) (arg_bootdir args) is_secondary edt;
  add_image out
    (path_join (path_join (arg_bootdir args) "zephyr") "zephyr.bin") "mcuboot";;
  add_image out (arg_primary args) "image-0";;
  match arg_secondary args with
  | Some secondary => add_image out secondary "image-1"
  | None => mret ()
  end.

(** ** Auxiliary definitions for the statements *)

(** The world with the file at [path] holding [data]. *)
Definition put (path : string) (data : list byte) (w : World) : World :=
  set_files w (<[path := data]> (files w)).

(** data[a:b] for 0 <= a <= b. *)
Definition slice (data : list byte) (a b : Z) : list byte :=
  take (Z.to_nat (b - a)) (drop (Z.to_nat a) data).

(** data[i] for 0 <= i, when there is such a byte. *)
Definition byte_at (data : list byte) (i : Z) : option byte :=
  data !! Z.to_nat i.

(** The world without the file at [path]. *)
Definition wipe (path : string) (w : World) : World :=
  set_files w (delete path (files w)).

(** Two worlds that differ at most in the file at [path]. *)
Definition same_but (path : string) (w w' : World) : Prop :=
  (∀ p, p ≠ path → files w !! p = files w' !! p) ∧
  unlink_fault w = unlink_fault w'.

(** A computation that touches no file but the one at [path]. *)
Definition confined {A} (path : string) (c : IO A) : Prop :=
  ∀ w, same_but path w (c w).2.

(** A caller that makes one [add_image] call after the other on [self] and
    goes on when a call has failed: the world after each call. *)
Fixpoint worlds_after (self : Assembly) (calls : list (string * string))
    (w : World) : list World :=
  match calls with
  | [] => []
  | (source, partition) :: calls' =>
      let w' := (add_image self source partition w).2 in
      w' :: worlds_after self calls' w'
  end.

(** The artifact before the first of these calls and after each of them. *)
Definition artifact_trace (self : Assembly) (calls : list (string * string))
    (w : World) : list (list byte) :=
  content w (output self) ::
  ((λ w', content w' (output self)) <$> worlds_after self calls w).

(** ** find_board_name *)

(** s.split(sep, 1) for a separator of one character: the text before the
    first separator and the text after it, or the text alone when it has no
    separator. *)
Fixpoint split_once (sep : ascii) (s : string) : list string :=
  match s with
  | EmptyString => [EmptyString]
  | String c s' =>
      if bool_decide (c = sep) then [EmptyString; s']
      else match split_once sep s' with
           | head :: rest => String c head :: rest
           | [] => [String c EmptyString]
           end
  end.

(** s.lstrip(chars) *)
Fixpoint lstrip (chars : list ascii) (s : string) : string :=
  match s with
  | EmptyString => EmptyString
  | String c s' => if bool_decide (c ∈ chars) then lstrip chars s' else s
  end.

(** s.rstrip(chars): a character goes when it is one of [chars] and nothing
    is left of what follows it. *)
Fixpoint rstrip (chars : list ascii) (s : string) : string :=
  match s with
  | EmptyString => EmptyString
  | String c s' =>
      match rstrip chars s' with
      | EmptyString =>
          if bool_decide (c ∈ chars) then EmptyString else String c EmptyString
      | rest => String c rest
      end
  end.

(** s.strip(chars) *)
Definition strip (chars : list ascii) (s : string) : string :=
  rstrip chars (lstrip chars s).

Definition quote : ascii := Ascii.ascii_of_nat 34.
Definition newline : ascii := Ascii.ascii_of_nat 10.
Definition equals_sign : ascii := Ascii.ascii_of_nat 61.

(** The path of the bootloader's configuration. *)
Definition dot_config (bootdir : string) : string :=
  path_join (path_join bootdir "zephyr") ".config".

(** find_board_name, from the lines that iterating over the open
    configuration file gives, each with its line end: the loop and the
    [raise] after it. *)
Fixpoint find_board_name (bootdir : string) (lines : list string)
  : exn + string :=
  match lines with
  | [] =>
      inl (Exception ("Expected CONFIG_BOARD line in " +:+ dot_config bootdir))
  | line :: lines' =>
      if String.prefix "CONFIG_BOARD=" line then
        match split_once equals_sign line !! 1%nat with
        | Some value => inr (strip [quote] value)
        | None => inl IndexError
        end
      else find_board_name bootdir lines'
  end.

(** ** Auxiliary definitions for the further statements *)

(** Every child that the loops of [find_slots] visit, in order. *)
Definition all_children (edt : EDT) : list Node :=
  concat (children <$> default [] (compat2nodes edt !! "fixed-partitions")).

(** The first register of the last of [cs] that is labelled [l]. *)
Definition last_labelled (l : string) (cs : list Node) : option Register :=
  last (filter (λ c, label c = Some l) cs) ≫= λ c, head (regs c).


(** ** A small board, for the examples *)

Module Sample.

(** Three partitions of four bytes each, with a hole before the last. *)
Definition table : PartitionMap :=
  {| offsets := {[ "mcuboot" := 0; "image-0" := 4; "image-1" := 10 ]};
     sizes := {[ "mcuboot" := 4; "image-0" := 4; "image-1" := 4 ]} |}.

Definition asm : Assembly := {| slots := table; output := "out.bin" |}.

Definition offsets_at (partition : string) : option Z :=
  offsets (slots asm) !! partition.
Definition sizes_at (partition : string) : option Z :=
  sizes (slots asm) !! partition.

Definition boot : list byte := [x01; x02].
Definition app : list byte := [x0a; x0b; x0c; x0d].
Definition upd : list byte := [x1a; x1b; x1c].
Definition big : list byte := [x2a; x2b; x2c; x2d; x2e].

Definition sources : gmap string (list byte) :=
  {[ "build/zephyr/zephyr.bin" := boot; "app.bin" := app;
     "upd.bin" := upd; "big.bin" := big ]}.

(** No artifact yet. *)
Definition fresh : World := {| files := sources; unlink_fault := ∅ |}.

(** The bootloader is in place. *)
Definition booted : World :=
  {| files := <["out.bin" := boot]> sources; unlink_fault := ∅ |}.

(** The artifact has gone past the offset of image-0. *)
Definition passed : World :=
  {| files := <["out.bin" := [x01; x02; xff; xff; x0a]]> sources;
     unlink_fault := ∅ |}.

(** A stale artifact that the system refuses to remove. *)
Definition locked : World :=
  {| files := <["out.bin" := [x00]]> sources;
     unlink_fault := {[ "out.bin" := EACCES ]} |}.

Definition child (name : string) (addr size : Z) : Node :=
  {| label := Some name;
     regs := [ {| reg_addr := addr; reg_size := size |} ] |}.

Definition edt : EDT :=
  {| compat2nodes :=
       {[ "fixed-partitions" :=
            [ {| children := [ child "mcuboot" 0 4; child "image-0" 4 4;
                               child "image-1" 10 4 ] |} ] ]} |}.

(** A devicetree without a bootloader partition. *)
Definition edt_no_boot : EDT :=
  {| compat2nodes :=
       {[ "fixed-partitions" :=
            [ {| children := [ child "image-0" 4 4 ] |} ] ]} |}.

Definition args : Args :=
  {| arg_bootdir := "build"; arg_primary := "app.bin";
     arg_secondary := Some "upd.bin"; arg_output := "out.bin" |}.

(** A devicetree with a labelled child that has no register. *)
Definition edt_no_reg : EDT :=
  {| compat2nodes :=
       {[ "fixed-partitions" :=
            [ {| children := [ child "mcuboot" 0 4;
                               {| label := Some "image-0"; regs := [] |} ] |} ] ]} |}.

(** The command line without a secondary image. *)
Definition args_single : Args :=
  {| arg_bootdir := "build"; arg_primary := "app.bin";
     arg_secondary := None; arg_output := "out.bin" |}.

End Sample.

(** * Properties *)

(** ** The partition-map loader *)

Section Loader.
Context {A B : Type}.
Implicit Types (a : gmap string A) (b : gmap string B).

Lemma contains_true {C} (d : gmap string C) k :
  contains d k = true ↔ k ∈ dom d.
Proof. unfold contains. rewrite bool_decide_eq_true. by rewrite elem_of_dom. Qed.

Lemma contains_false {C} (d : gmap string C) k :
  contains d k = false ↔ d !! k = None.
Proof.
  unfold contains. rewrite bool_decide_eq_false.
  by rewrite eq_None_not_Some.
Qed.

Lemma elem_of_keys a k : k ∈ keys a ↔ k ∈ dom a.
Proof.
  unfold keys. rewrite elem_of_dom, list_elem_of_fmap. split.
  - intros [[k' x] [-> Hin]]. apply elem_of_map_to_list in Hin. by exists x.
  - intros [x Hx]. exists (k, x). split; [done|]. by apply elem_of_map_to_list.
Qed.

Lemma keys_in_true ks b : keys_in ks b = true ↔ ∀ k, k ∈ ks → k ∈ dom b.
Proof.
  induction ks as [|ak ks IH]; simpl.
  - split; [|done]. intros _ k Hk. by apply elem_of_nil in Hk.
  - destruct (contains b ak) eqn:Hc; simpl.
    + apply contains_true in Hc. rewrite IH. split.
      * intros H k Hk. apply elem_of_cons in Hk as [->|Hk]; auto.
      * intros H k Hk. apply H. by right.
    + split; [done|]. intros H.
      assert (ak ∈ dom b) as Hin by (apply H; by left).
      apply contains_true in Hin. congruence.
Qed.

Lemma keys_in_false ks b :
  keys_in ks b = false ↔ ∃ k, k ∈ ks ∧ b !! k = None.
Proof.
  induction ks as [|ak ks IH]; simpl.
  - split; [done|]. intros (k & Hk & _). by apply elem_of_nil in Hk.
  - destruct (contains b ak) eqn:Hc; simpl.
    + rewrite IH. apply contains_true, elem_of_dom in Hc as [x Hx]. split.
      * intros (k & Hk & Hn). exists k. split; [by right|done].
      * intros (k & Hk & Hn). exists k. split; [|done].
        apply elem_of_cons in Hk as [->|Hk]; [congruence|done].
    + split; [intros _|done]. exists ak. split; [by left|].
      by apply contains_false.
Qed.

Lemma keys_in_subseteq a b : keys_in (keys a) b = true ↔ dom a ⊆ dom b.
Proof.
  rewrite keys_in_true. split.
  - intros H k Hk. apply H. by apply elem_of_keys.
  - intros H k Hk. apply H. by apply elem_of_keys.
Qed.
End Loader.

(** [same_keys] decides equality of the key sets. *)
Lemma same_keys_true {A B} (a : gmap string A) (b : gmap string B) :
  same_keys a b = true ↔ dom a = dom b.
Proof.
  unfold same_keys.
  destruct (keys_in (keys a) b) eqn:Hab; simpl.
  - destruct (keys_in (keys b) a) eqn:Hba; simpl.
    + apply keys_in_subseteq in Hab, Hba. split; [intros _|done].
      apply set_eq. intros k. split; [apply Hab | apply Hba].
    + split; [done|]. intros Heq.
      assert (keys_in (keys b) a = true) as H; [|congruence].
      apply keys_in_subseteq. by rewrite Heq.
  - split; [done|]. intros Heq.
    assert (keys_in (keys a) b = true) as H; [|congruence].
    apply keys_in_subseteq. by rewrite Heq.
Qed.

Lemma same_keys_false {A B} (a : gmap string A) (b : gmap string B) :
  same_keys a b = false ↔ dom a ≠ dom b.
Proof.
  rewrite <- same_keys_true. destruct (same_keys a b); split; congruence.
Qed.

(** Key sets differ exactly when some key is in one dict only. *)
Lemma dom_differ_iff {A B} (a : gmap string A) (b : gmap string B) :
  dom a ≠ dom b ↔
  (∃ k, is_Some (a !! k) ∧ b !! k = None) ∨
  (∃ k, is_Some (b !! k) ∧ a !! k = None).
Proof.
  split.
  - intros Hne. apply same_keys_false in Hne. unfold same_keys in Hne.
    destruct (keys_in (keys a) b) eqn:Hab; simpl in Hne.
    + destruct (keys_in (keys b) a) eqn:Hba; [done|]. right.
      apply keys_in_false in Hba as (k & Hk & Hn). exists k. split; [|done].
      by apply elem_of_dom, elem_of_keys.
    + left. apply keys_in_false in Hab as (k & Hk & Hn). exists k.
      split; [|done]. by apply elem_of_dom, elem_of_keys.
  - intros [[k [Hk Hn]]|[k [Hk Hn]]] Heq.
    + apply elem_of_dom in Hk. rewrite Heq in Hk.
      apply elem_of_dom in Hk as [? ?]. congruence.
    + apply elem_of_dom in Hk. rewrite <- Heq in Hk.
      apply elem_of_dom in Hk as [? ?]. congruence.
Qed.

(** What [find_slots] reads off a devicetree always has the same keys in both
    dicts: each label is stored in both at once. *)
Lemma add_children_same_keys pm cs pm' :
  dom (offsets pm) = dom (sizes pm) →
  add_children pm cs = inr pm' →
  dom (offsets pm') = dom (sizes pm').
Proof.
  revert pm. induction cs as [|c cs IH]; simpl; intros pm Hdom Hrun.
  - by simplify_eq.
  - destruct (add_child pm c) as [e|pm1] eqn:Hc; [done|].
    apply (IH pm1); [|done]. unfold add_child in Hc.
    destruct (label c) as [l|]; [|by simplify_eq].
    destruct (regs c) as [|r ?]; [done|]. simplify_eq. simpl.
    by rewrite !dom_insert_L, Hdom.
Qed.

Lemma read_slots_same_keys edt pm :
  read_slots edt = inr pm → dom (offsets pm) = dom (sizes pm).
Proof.
  unfold read_slots.
  generalize (default [] (compat2nodes edt !! "fixed-partitions")).
  assert (dom (offsets {| offsets := ∅; sizes := ∅ |}) =
          dom (sizes {| offsets := ∅; sizes := ∅ |})) as Hdom by done.
  revert Hdom. generalize {| offsets := ∅; sizes := ∅ |}.
  intros pm0 Hdom ns. revert pm0 Hdom.
  induction ns as [|n ns IH]; simpl; intros pm0 Hdom Hrun.
  - by simplify_eq.
  - destruct (add_children pm0 (children n)) as [e|pm1] eqn:Hc; [done|].
    apply (IH pm1); [|done]. by apply (add_children_same_keys pm0 (children n)).
Qed.

(** C2: when the key sets of the offset dict and of the size dict differ, in
    either direction, the checks of [find_slots] raise the "Inconsistent
    data" exception (the specification's ConsistencyError) and no partition
    map is returned. *)
Theorem load_inconsistent_keys
    (offsets sizes : gmap string Z) (is_secondary : bool) :
  dom offsets ≠ dom sizes →
  check_slots offsets sizes is_secondary = inl ConsistencyError ∧
  ∀ pm, check_slots offsets sizes is_secondary ≠ inr pm.
Proof.
  intros Hne. apply same_keys_false in Hne.
  unfold check_slots. rewrite Hne. simpl. split; [done|]. by intros pm.
Qed.

Lemma load_inconsistent_keys_witness :
  dom ({[ "mcuboot" := 0; "image-0" := 32768 ]} : gmap string Z) ≠
    dom ({[ "mcuboot" := 32768 ]} : gmap string Z) ∧
  check_slots {[ "mcuboot" := 0; "image-0" := 32768 ]}
              {[ "mcuboot" := 32768 ]} false = inl ConsistencyError.
Proof.
  assert (dom ({[ "mcuboot" := 0; "image-0" := 32768 ]} : gmap string Z) ≠
          dom ({[ "mcuboot" := 32768 ]} : gmap string Z)) as Hne.
  { apply same_keys_false. vm_compute. reflexivity. }
  split; [exact Hne|].
  exact (proj1 (load_inconsistent_keys _ _ false Hne)).
Defined.

(** C3: with identical key sets, a dict that lacks "mcuboot", or "image-0",
    or, when a secondary image is asked for, "image-1", makes the checks of
    [find_slots] raise the "does not have ... partition" exception (the
    specification's MissingPartitionError) for a partition that is indeed
    absent; without a secondary image, the absence of "image-1" alone is
    accepted. *)
Theorem load_missing_partition
    (offsets sizes : gmap string Z) (is_secondary : bool) :
  dom offsets = dom sizes →
  (offsets !! "mcuboot" = None ∨ offsets !! "image-0" = None ∨
   (is_secondary = true ∧ offsets !! "image-1" = None) →
   ∃ name, name ∈ ["mcuboot"; "image-0"; "image-1"] ∧
           offsets !! name = None ∧
           check_slots offsets sizes is_secondary =
             inl (MissingPartitionError name)) ∧
  (is_secondary = false →
   is_Some (offsets !! "mcuboot") → is_Some (offsets !! "image-0") →
   offsets !! "image-1" = None →
   check_slots offsets sizes is_secondary =
     inr {| offsets := offsets; sizes := sizes |}).
Proof.
  intros Hdom. apply same_keys_true in Hdom.
  unfold check_slots. rewrite Hdom. simpl. split.
  - intros Hmiss.
    destruct (contains offsets "mcuboot") eqn:Hm; simpl.
    2:{ exists "mcuboot". apply contains_false in Hm.
         split; [rewrite !elem_of_cons; auto|done]. }
    destruct (contains offsets "image-0") eqn:H0; simpl.
    2:{ exists "image-0". apply contains_false in H0.
         split; [rewrite !elem_of_cons; auto|done]. }
    destruct (contains offsets "image-1") eqn:H1; simpl.
    + apply contains_true, elem_of_dom in Hm as [? Hm].
      apply contains_true, elem_of_dom in H0 as [? H0].
      apply contains_true, elem_of_dom in H1 as [? H1].
      destruct Hmiss as [?|[?|[_ ?]]]; congruence.
    + destruct is_secondary.
      * exists "image-1". apply contains_false in H1.
         split; [rewrite !elem_of_cons; auto|done].
      * apply contains_true, elem_of_dom in Hm as [? Hm].
        apply contains_true, elem_of_dom in H0 as [? H0].
        destruct Hmiss as [?|[?|[? _]]]; congruence.
  - intros -> Hm H0 H1.
    apply elem_of_dom, contains_true in Hm.
    apply elem_of_dom, contains_true in H0.
    apply contains_false in H1.
    by rewrite Hm, H0, H1.
Qed.

Lemma load_missing_partition_witness :
  let offsets : gmap string Z := {[ "mcuboot" := 0; "image-0" := 32768 ]} in
  let sizes : gmap string Z := {[ "mcuboot" := 32768; "image-0" := 65536 ]} in
  dom offsets = dom sizes ∧
  (∃ name, name ∈ ["mcuboot"; "image-0"; "image-1"] ∧
           offsets !! name = None ∧
           check_slots offsets sizes true = inl (MissingPartitionError name)) ∧
  check_slots offsets sizes false =
    inr {| offsets := offsets; sizes := sizes |}.
Proof.
  intros offsets sizes.
  assert (dom offsets = dom sizes) as Hdom.
  { apply same_keys_true. vm_compute. reflexivity. }
  split; [exact Hdom|]. split.
  - apply (proj1 (load_missing_partition offsets sizes true Hdom)).
    right. right. split; reflexivity.
  - apply (proj2 (load_missing_partition offsets sizes false Hdom)).
    + reflexivity.
    + exists 0. reflexivity.
    + exists 32768. reflexivity.
    + reflexivity.
Defined.

(** C7: with identical key sets that hold "mcuboot", "image-0" and, when a
    secondary image is asked for, "image-1", the checks of [find_slots] pass
    and the partition map they yield has exactly the two dicts given, entry
    for entry; run as a computation, the load leaves the world as it found
    it.  (The dicts are values here: there is nothing of them to mutate.) *)
Theorem load_valid (offsets sizes : gmap string Z) (is_secondary : bool) :
  dom offsets = dom sizes →
  "mcuboot" ∈ dom offsets →
  "image-0" ∈ dom offsets →
  (is_secondary = true → "image-1" ∈ dom offsets) →
  check_slots offsets sizes is_secondary =
    inr {| offsets := offsets; sizes := sizes |} ∧
  ∀ w, lift (check_slots offsets sizes is_secondary) w =
         (inr {| offsets := offsets; sizes := sizes |}, w).
Proof.
  intros Hdom Hm H0 H1.
  assert (check_slots offsets sizes is_secondary =
            inr {| offsets := offsets; sizes := sizes |}) as Hok.
  { apply same_keys_true in Hdom.
    apply contains_true in Hm, H0.
    unfold check_slots. rewrite Hdom, Hm, H0. simpl.
    destruct is_secondary; simpl.
    - specialize (H1 eq_refl). apply contains_true in H1. by rewrite H1.
    - by rewrite andb_false_r. }
  split; [exact Hok|]. intros w. by rewrite Hok.
Qed.

Lemma load_valid_witness :
  let offsets : gmap string Z :=
    {[ "mcuboot" := 0; "image-0" := 32768; "image-1" := 98304 ]} in
  let sizes : gmap string Z :=
    {[ "mcuboot" := 32768; "image-0" := 65536; "image-1" := 65536 ]} in
  dom offsets = dom sizes ∧
  check_slots offsets sizes true =
    inr {| offsets := offsets; sizes := sizes |}.
Proof.
  intros offsets sizes.
  assert (dom offsets = dom sizes) as Hdom.
  { apply same_keys_true. vm_compute. reflexivity. }
  split; [exact Hdom|].
  apply (load_valid offsets sizes true Hdom).
  - apply contains_true. vm_compute. reflexivity.
  - apply contains_true. vm_compute. reflexivity.
  - intros _. apply contains_true. vm_compute. reflexivity.
Defined.

(** ** The world under [add_image] *)

Lemma put_put path d d' w : put path d (put path d' w) = put path d w.
Proof. unfold put, set_files. simpl. by rewrite insert_insert_eq. Qed.

Lemma content_put path d w : content (put path d w) path = d.
Proof. unfold content, put. simpl. by rewrite lookup_insert_eq. Qed.

Lemma files_put_ne path d w p :
  p ≠ path → files (put path d w) !! p = files w !! p.
Proof. intros Hne. unfold put. simpl. by rewrite lookup_insert_ne. Qed.

Lemma files_put_eq path d w : files (put path d w) !! path = Some d.
Proof. unfold put. simpl. by rewrite lookup_insert_eq. Qed.

(** A file that is there already is not changed by storing its content. *)
Lemma put_content path w :
  is_Some (files w !! path) → put path (content w path) w = w.
Proof.
  intros [d Hd]. unfold put, content, set_files. rewrite Hd. simpl.
  rewrite insert_id by done. by destruct w.
Qed.

Lemma open_append_eq path w :
  open_append path w = (inr (), put path (content w path) w).
Proof.
  unfold open_append. destruct (files w !! path) as [d|] eqn:Hd.
  - by rewrite put_content by (by rewrite Hd).
  - unfold put, content. by rewrite Hd.
Qed.

Lemma write_put path buf d w :
  write path buf (put path d w) = (inr (), put path (d ++ buf) w).
Proof. unfold write. by rewrite content_put, <- (put_put path (d ++ buf) d w). Qed.

Lemma padding_length n : 0 ≤ n → Z.of_nat (length (padding n)) = n.
Proof. intros Hn. unfold padding. rewrite length_replicate. lia. Qed.

Lemma padding_0 : padding 0 = [].
Proof. done. Qed.

(** [add_image] written out: where it stops, and in which world. *)
Lemma add_image_eq self source partition w :
  add_image self source partition w =
    let out := output self in
    let old := content w out in
    let pos := Z.of_nat (length old) in
    match offsets (slots self) !! partition with
    | None => (inl (KeyError partition), put out old w)
    | Some offset =>
        if bool_decide (pos > offset)
        then (inl OutOfOrderError, put out old w)
        else
          let padded := old ++ padding (offset - pos) in
          match files (put out padded w) !! source with
          | None => (inl (OSError ENOENT), put out padded w)
          | Some ibuf =>
              match sizes (slots self) !! partition with
              | None => (inl (KeyError partition), put out padded w)
              | Some size =>
                  if bool_decide (Z.of_nat (length ibuf) > size)
                  then (inl (OversizedImageError source), put out padded w)
                  else (inr (), put out (padded ++ ibuf) w)
              end
          end
    end.
Proof.
  unfold add_image, mbind, IO_bind, bind, mret, IO_ret, ret, raise.
  rewrite open_append_eq. unfold tell. rewrite content_put. cbv zeta.
  unfold getitem at 1.
  destruct (offsets (slots self) !! partition) as [offset|]; [|done].
  unfold ret. case_bool_decide as Hgt; [done|].
  set (old := content w (output self)) in *.
  assert ((if bool_decide (Z.of_nat (length old) < offset)
           then write (output self) (padding (offset - Z.of_nat (length old)))
           else λ w, (inr (), w)) (put (output self) old w) =
          (inr (), put (output self)
                       (old ++ padding (offset - Z.of_nat (length old))) w))
    as ->.
  { case_bool_decide as Hlt.
    - by rewrite write_put.
    - replace (offset - _) with 0 by lia. by rewrite padding_0, app_nil_r. }
  unfold read_all.
  destruct (files (put (output self) _ w) !! source) as [ibuf|]; [|done].
  unfold getitem, raise, ret.
  destruct (sizes (slots self) !! partition) as [size|]; [|done].
  case_bool_decide; [done|]. by rewrite write_put.
Qed.

(** A call succeeds when the cursor has not passed the offset and the source,
    a file other than the artifact, is within the size. *)
Lemma add_image_ok self source partition offset size ibuf w :
  offsets (slots self) !! partition = Some offset →
  sizes (slots self) !! partition = Some size →
  source ≠ output self →
  files w !! source = Some ibuf →
  Z.of_nat (length (content w (output self))) ≤ offset →
  Z.of_nat (length ibuf) ≤ size →
  add_image self source partition w =
    (inr (), put (output self)
               (content w (output self) ++
                padding (offset - Z.of_nat (length (content w (output self))))
                ++ ibuf) w).
Proof.
  intros Hoff Hsz Hne Hsrc Hle Hfit. rewrite add_image_eq. cbv zeta.
  rewrite Hoff, Hsz. rewrite bool_decide_eq_false_2 by lia.
  rewrite files_put_ne, Hsrc by done.
  rewrite bool_decide_eq_false_2 by lia. by rewrite <- app_assoc.
Qed.

(** ** Rejections of [add_image] *)

(** C4: when the artifact is already longer than the offset of the partition
    asked for, [add_image] raises "Partitions not in order" (the
    specification's OutOfOrderError) and writes nothing: the artifact has the
    bytes it had, no other file is touched, and if the artifact existed the
    world is the one before the call. *)
Theorem add_image_out_of_order
    (self : Assembly) (source partition : string) (offset : Z) (w : World) :
  offsets (slots self) !! partition = Some offset →
  Z.of_nat (length (content w (output self))) > offset →
  (add_image self source partition w).1 = inl OutOfOrderError ∧
  content (add_image self source partition w).2 (output self) =
    content w (output self) ∧
  (∀ p, p ≠ output self →
        files (add_image self source partition w).2 !! p = files w !! p) ∧
  (is_Some (files w !! output self) →
   (add_image self source partition w).2 = w).
Proof.
  intros Hoff Hgt. rewrite add_image_eq. cbv zeta. rewrite Hoff.
  rewrite bool_decide_eq_true_2 by done. cbn [fst snd].
  split; [done|]. split; [by rewrite content_put|]. split.
  - intros p Hp. by rewrite files_put_ne.
  - intros Hex. by apply put_content.
Qed.

Lemma add_image_out_of_order_witness :
  Sample.offsets_at "image-0" = Some 4 ∧
  Z.of_nat (length (content Sample.passed "out.bin")) > 4 ∧
  (add_image Sample.asm "app.bin" "image-0" Sample.passed).1 =
    inl OutOfOrderError ∧
  (add_image Sample.asm "app.bin" "image-0" Sample.passed).2 = Sample.passed.
Proof.
  assert (Sample.offsets_at "image-0" = Some 4) as Hoff by reflexivity.
  assert (Z.of_nat (length (content Sample.passed "out.bin")) > 4) as Hgt
    by reflexivity.
  split; [exact Hoff|]. split; [exact Hgt|].
  destruct (add_image_out_of_order Sample.asm "app.bin" "image-0" 4
              Sample.passed Hoff Hgt) as (Hr & _ & _ & Hw).
  split; [exact Hr|]. apply Hw. exists [x01; x02; xff; xff; x0a]. reflexivity.
Defined.

(** The size check is not reached when the order check fails: with the
    artifact five bytes long and image-0 at offset 4, a five-byte source for
    that four-byte partition is turned away as out of order, not as too
    large. *)
Lemma add_image_oversized_counterexample :
  Sample.sizes_at "image-0" = Some 4 ∧
  files Sample.passed !! "big.bin" = Some Sample.big ∧
  Z.of_nat (length Sample.big) > 4 ∧
  (add_image Sample.asm "big.bin" "image-0" Sample.passed).1 =
    inl OutOfOrderError ∧
  (add_image Sample.asm "big.bin" "image-0" Sample.passed).1 ≠
    inl (OversizedImageError "big.bin").
Proof.
  split; [reflexivity|]. split; [reflexivity|]. split; [reflexivity|].
  assert ((add_image Sample.asm "big.bin" "image-0" Sample.passed).1 =
            inl OutOfOrderError) as Hr by (vm_compute; reflexivity).
  split; [exact Hr|]. rewrite Hr. discriminate.
Qed.

(** C5, as the code has it: the order check comes first, so the size check
    is reached only when the artifact is not longer than the partition's
    offset.  Then a source longer than the partition's size makes [add_image]
    raise "Image ... is too large" (the specification's OversizedImageError);
    none of the source's bytes are written, but the 0xFF padding up to the
    offset is, so the artifact ends exactly at the offset. *)
Theorem add_image_oversized
    (self : Assembly) (source partition : string) (offset size : Z)
    (ibuf : list byte) (w : World) :
  offsets (slots self) !! partition = Some offset →
  sizes (slots self) !! partition = Some size →
  files w !! source = Some ibuf →
  Z.of_nat (length (content w (output self))) ≤ offset →
  Z.of_nat (length ibuf) > size →
  (add_image self source partition w).1 = inl (OversizedImageError source) ∧
  content (add_image self source partition w).2 (output self) =
    content w (output self) ++
    padding (offset - Z.of_nat (length (content w (output self)))) ∧
  Z.of_nat (length (content (add_image self source partition w).2
                            (output self))) = offset ∧
  (∀ p, p ≠ output self →
        files (add_image self source partition w).2 !! p = files w !! p).
Proof.
  intros Hoff Hsz Hsrc Hle Hbig. rewrite add_image_eq. cbv zeta.
  rewrite Hoff, Hsz. rewrite bool_decide_eq_false_2 by lia.
  set (old := content w (output self)) in *.
  set (padded := old ++ padding (offset - Z.of_nat (length old))).
  assert (Z.of_nat (length padded) = offset) as Hlen.
  { unfold padded. rewrite length_app, Nat2Z.inj_add, padding_length; lia. }
  assert (∃ read, files (put (output self) padded w) !! source = Some read ∧
                  Z.of_nat (length read) > size) as (read & -> & Hread).
  { destruct (decide (source = output self)) as [->|Hne].
    - exists padded. rewrite files_put_eq. split; [done|].
      assert (old = ibuf) as Hold by (unfold old, content; by rewrite Hsrc).
      rewrite Hold in Hle. lia.
    - exists ibuf. by rewrite files_put_ne. }
  rewrite bool_decide_eq_true_2 by done. cbn [fst snd].
  split; [done|]. rewrite content_put. split; [done|]. split; [done|].
  intros p Hp. by rewrite files_put_ne.
Qed.

Lemma add_image_oversized_witness :
  Sample.offsets_at "image-0" = Some 4 ∧
  Sample.sizes_at "image-0" = Some 4 ∧
  files Sample.booted !! "big.bin" = Some Sample.big ∧
  Z.of_nat (length (content Sample.booted "out.bin")) ≤ 4 ∧
  Z.of_nat (length Sample.big) > 4 ∧
  (add_image Sample.asm "big.bin" "image-0" Sample.booted).1 =
    inl (OversizedImageError "big.bin") ∧
  content (add_image Sample.asm "big.bin" "image-0" Sample.booted).2 "out.bin" =
    [x01; x02; xff; xff].
Proof.
  assert (Sample.offsets_at "image-0" = Some 4) as Hoff by reflexivity.
  assert (Sample.sizes_at "image-0" = Some 4) as Hsz by reflexivity.
  assert (files Sample.booted !! "big.bin" = Some Sample.big) as Hsrc
    by reflexivity.
  assert (Z.of_nat (length (content Sample.booted "out.bin")) ≤ 4) as Hle
    by (vm_compute; discriminate).
  assert (Z.of_nat (length Sample.big) > 4) as Hbig by reflexivity.
  repeat (split; [assumption|]).
  destruct (add_image_oversized Sample.asm "big.bin" "image-0" 4 4 Sample.big
              Sample.booted Hoff Hsz Hsrc Hle Hbig) as (Hr & Hc & _ & _).
  split; [exact Hr|]. etrans; [exact Hc|reflexivity].
Defined.

(** Nor is a source that fills its partition exactly accepted when the order
    check fails: with the artifact five bytes long and image-0 at offset 4,
    a four-byte source for that four-byte partition is turned away. *)
Lemma add_image_exact_fit_counterexample :
  Sample.sizes_at "image-0" = Some (Z.of_nat (length Sample.app)) ∧
  files Sample.passed !! "app.bin" = Some Sample.app ∧
  (add_image Sample.asm "app.bin" "image-0" Sample.passed).1 =
    inl OutOfOrderError ∧
  (add_image Sample.asm "app.bin" "image-0" Sample.passed).1 ≠ inr () ∧
  content (add_image Sample.asm "app.bin" "image-0" Sample.passed).2 "out.bin" =
    content Sample.passed "out.bin".
Proof.
  split; [reflexivity|]. split; [reflexivity|].
  assert ((add_image Sample.asm "app.bin" "image-0" Sample.passed).1 =
            inl OutOfOrderError) as Hr by (vm_compute; reflexivity).
  split; [exact Hr|]. split; [rewrite Hr; discriminate|].
  vm_compute. reflexivity.
Qed.

(** C10, as the code has it: the order check comes first.  When the artifact
    is not longer than the partition's offset, a source (a file other than
    the artifact) whose length is exactly the partition's size is accepted:
    the call succeeds and appends, after the padding, every byte of it. *)
Theorem add_image_exact_fit
    (self : Assembly) (source partition : string) (offset : Z)
    (ibuf : list byte) (w : World) :
  offsets (slots self) !! partition = Some offset →
  sizes (slots self) !! partition = Some (Z.of_nat (length ibuf)) →
  source ≠ output self →
  files w !! source = Some ibuf →
  Z.of_nat (length (content w (output self))) ≤ offset →
  (add_image self source partition w).1 = inr () ∧
  content (add_image self source partition w).2 (output self) =
    content w (output self) ++
    padding (offset - Z.of_nat (length (content w (output self)))) ++ ibuf.
Proof.
  intros Hoff Hsz Hne Hsrc Hle. rewrite add_image_eq. cbv zeta.
  rewrite Hoff, Hsz. rewrite bool_decide_eq_false_2 by lia.
  rewrite files_put_ne, Hsrc by done.
  rewrite bool_decide_eq_false_2 by lia. cbn [fst snd].
  split; [done|]. by rewrite content_put, <- app_assoc.
Qed.

Lemma add_image_exact_fit_witness :
  Sample.offsets_at "image-0" = Some 4 ∧
  Sample.sizes_at "image-0" = Some (Z.of_nat (length Sample.app)) ∧
  "app.bin" ≠ output Sample.asm ∧
  files Sample.booted !! "app.bin" = Some Sample.app ∧
  Z.of_nat (length (content Sample.booted "out.bin")) ≤ 4 ∧
  (add_image Sample.asm "app.bin" "image-0" Sample.booted).1 = inr () ∧
  content (add_image Sample.asm "app.bin" "image-0" Sample.booted).2 "out.bin" =
    [x01; x02; xff; xff; x0a; x0b; x0c; x0d].
Proof.
  assert (Sample.offsets_at "image-0" = Some 4) as Hoff by reflexivity.
  assert (Sample.sizes_at "image-0" = Some (Z.of_nat (length Sample.app)))
    as Hsz by reflexivity.
  assert ("app.bin" ≠ output Sample.asm) as Hne by discriminate.
  assert (files Sample.booted !! "app.bin" = Some Sample.app) as Hsrc
    by reflexivity.
  assert (Z.of_nat (length (content Sample.booted "out.bin")) ≤ 4) as Hle
    by (vm_compute; discriminate).
  repeat (split; [assumption|]).
  destruct (add_image_exact_fit Sample.asm "app.bin" "image-0" 4 Sample.app
              Sample.booted Hoff Hsz Hne Hsrc Hle) as (Hr & Hc).
  split; [exact Hr|]. etrans; [exact Hc|reflexivity].
Defined.

(** ** The write cursor *)

(** Whatever its outcome, [add_image] leaves every file but the artifact as
    it was, and the artifact with what it had plus what the call appended. *)
Lemma add_image_appends self source partition w :
  ∃ suffix,
    (add_image self source partition w).2 =
      put (output self) (content w (output self) ++ suffix) w.
Proof.
  rewrite add_image_eq. cbv zeta.
  destruct (offsets (slots self) !! partition) as [offset|].
  2:{ exists []. by rewrite app_nil_r. }
  case_bool_decide.
  { exists []. by rewrite app_nil_r. }
  destruct (files (put (output self) _ w) !! source) as [ibuf|].
  2:{ by eexists. }
  destruct (sizes (slots self) !! partition) as [size|].
  2:{ by eexists. }
  case_bool_decide.
  - by eexists.
  - eexists. cbn [snd]. by rewrite <- app_assoc.
Qed.

Lemma add_image_prefix self source partition w :
  content w (output self) `prefix_of`
    content (add_image self source partition w).2 (output self).
Proof.
  destruct (add_image_appends self source partition w) as [suffix ->].
  rewrite content_put. by exists suffix.
Qed.

Lemma StronglySorted_push {A} (R : relation A) `{!Transitive R} x y l :
  R x y → StronglySorted R (y :: l) → StronglySorted R (x :: y :: l).
Proof.
  intros Hxy Hs. apply StronglySorted_cons. split; [|done].
  apply StronglySorted_cons in Hs as [Hall _].
  constructor; [done|]. eapply Forall_impl; [exact Hall|].
  intros z Hz. by trans y.
Qed.

Lemma artifact_trace_sorted self calls w :
  StronglySorted prefix (artifact_trace self calls w).
Proof.
  revert w. induction calls as [|[source partition] calls IH]; intros w.
  - unfold artifact_trace. simpl. repeat constructor.
  - unfold artifact_trace. simpl.
    apply (StronglySorted_push prefix); [apply add_image_prefix|].
    apply IH.
Qed.

(** C8: along any sequence of [add_image] calls on one assembler, each of
    which may succeed or fail, the artifact only grows at its end: a single
    call leaves it at least as long as it was, with the bytes it had before
    still in front (nothing is written below the cursor), and so the
    artifacts seen along the sequence, and their lengths, are in
    non-decreasing order. *)
Theorem cursor_monotone
    (self : Assembly) (calls : list (string * string)) (w : World) :
  (∀ source partition w0,
     content w0 (output self) `prefix_of`
       content (add_image self source partition w0).2 (output self) ∧
     (length (content w0 (output self)) ≤
        length (content (add_image self source partition w0).2
                        (output self)))%nat) ∧
  StronglySorted prefix (artifact_trace self calls w) ∧
  StronglySorted Nat.le (length <$> artifact_trace self calls w).
Proof.
  split; [|split].
  - intros source partition w0.
    pose proof (add_image_prefix self source partition w0) as Hp.
    split; [done|]. by apply prefix_length.
  - apply artifact_trace_sorted.
  - pose proof (artifact_trace_sorted self calls w) as Hs.
    induction Hs as [|x l Hs IH Hall]; simpl; constructor; [done|].
    apply Forall_fmap. eapply Forall_impl; [exact Hall|].
    intros y Hy. simpl. by apply prefix_length.
Qed.

(** A caller that carries on after failures: an oversized bootloader, the
    bootloader, the primary image, the bootloader again (out of order), and
    an update whose file is missing (the padding is written all the same). *)
Example artifact_trace_sample :
  length <$> artifact_trace Sample.asm
    [("big.bin", "mcuboot"); ("build/zephyr/zephyr.bin", "mcuboot");
     ("app.bin", "image-0"); ("build/zephyr/zephyr.bin", "mcuboot");
     ("none.bin", "image-1")] Sample.fresh
  = [0; 0; 2; 8; 8; 10]%nat.
Proof. vm_compute. reflexivity. Qed.

(** ** Placement *)

Lemma seq_ok_inv (c k : IO ()) w w' :
  (c;; k) w = (inr (), w') → ∃ w1, c w = (inr (), w1) ∧ k w1 = (inr (), w').
Proof.
  unfold mbind, IO_bind, bind. destruct (c w) as [[e|[]] w1]; [done|].
  intros Hk. by exists w1.
Qed.

(** A call that returns has found the cursor at or before the offset and the
    source within the size, and has appended the padding and the source. *)
Lemma add_image_ok_inv self source partition offset ibuf w w' :
  offsets (slots self) !! partition = Some offset →
  source ≠ output self →
  files w !! source = Some ibuf →
  add_image self source partition w = (inr (), w') →
  Z.of_nat (length (content w (output self))) ≤ offset ∧
  w' = put (output self)
         (content w (output self) ++
          padding (offset - Z.of_nat (length (content w (output self)))) ++
          ibuf) w.
Proof.
  intros Hoff Hne Hsrc. rewrite add_image_eq. cbv zeta. rewrite Hoff.
  case_bool_decide as Hgt; [done|].
  rewrite files_put_ne, Hsrc by done.
  destruct (sizes (slots self) !! partition) as [size|]; [|done].
  case_bool_decide; [done|]. intros [= <-]. split; [lia|].
  by rewrite <- app_assoc.
Qed.

Lemma slice_app (pre mid post : list byte) (a b : Z) :
  Z.of_nat (length pre) = a →
  b = a + Z.of_nat (length mid) →
  slice (pre ++ mid ++ post) a b = mid.
Proof.
  intros Ha ->. unfold slice.
  replace (Z.to_nat a) with (length pre) by lia.
  replace (Z.to_nat (a + Z.of_nat (length mid) - a)) with (length mid) by lia.
  by rewrite drop_app_length, take_app_length.
Qed.

Lemma byte_at_padding (pre post : list byte) (n i : Z) :
  Z.of_nat (length pre) ≤ i < Z.of_nat (length pre) + n →
  byte_at (pre ++ padding n ++ post) i = Some xff.
Proof.
  intros Hi. unfold byte_at.
  rewrite lookup_app_r by lia. rewrite lookup_app_l.
  - unfold padding. apply lookup_replicate_2. lia.
  - unfold padding. rewrite length_replicate. lia.
Qed.

(** C1: three images placed at offsets o1 < o2 < o3, each no longer than its
    partition's size and each read from a file other than the artifact: when
    the three [add_image] calls have succeeded, the artifact holds each
    source at its partition's offset, byte for byte, and 0xFF in every byte
    between the end of one image and the start of the next. *)
Theorem offset_correctness
    (self : Assembly) (w w3 : World)
    (p1 p2 p3 src1 src2 src3 : string)
    (o1 o2 o3 s1 s2 s3 : Z) (b1 b2 b3 : list byte) :
  offsets (slots self) !! p1 = Some o1 →
  offsets (slots self) !! p2 = Some o2 →
  offsets (slots self) !! p3 = Some o3 →
  sizes (slots self) !! p1 = Some s1 →
  sizes (slots self) !! p2 = Some s2 →
  sizes (slots self) !! p3 = Some s3 →
  o1 < o2 → o2 < o3 →
  src1 ≠ output self → src2 ≠ output self → src3 ≠ output self →
  files w !! src1 = Some b1 →
  files w !! src2 = Some b2 →
  files w !! src3 = Some b3 →
  Z.of_nat (length b1) ≤ s1 →
  Z.of_nat (length b2) ≤ s2 →
  Z.of_nat (length b3) ≤ s3 →
  (add_image self src1 p1;; add_image self src2 p2;; add_image self src3 p3) w
    = (inr (), w3) →
  slice (content w3 (output self)) o1 (o1 + Z.of_nat (length b1)) = b1 ∧
  slice (content w3 (output self)) o2 (o2 + Z.of_nat (length b2)) = b2 ∧
  slice (content w3 (output self)) o3 (o3 + Z.of_nat (length b3)) = b3 ∧
  (∀ i, o1 + Z.of_nat (length b1) ≤ i < o2 →
        byte_at (content w3 (output self)) i = Some xff) ∧
  (∀ i, o2 + Z.of_nat (length b2) ≤ i < o3 →
        byte_at (content w3 (output self)) i = Some xff).
Proof.
  intros Ho1 Ho2 Ho3 _ _ _ _ _ Hn1 Hn2 Hn3 Hf1 Hf2 Hf3 _ _ _ Hrun.
  apply seq_ok_inv in Hrun as (w1 & Hc1 & Hrun).
  apply seq_ok_inv in Hrun as (w2 & Hc2 & Hc3).
  apply (add_image_ok_inv _ _ _ o1 b1) in Hc1 as [Hle1 ->]; [|done..].
  apply (add_image_ok_inv _ _ _ o2 b2) in Hc2 as [Hle2 ->];
    [|done|done|by rewrite files_put_ne].
  apply (add_image_ok_inv _ _ _ o3 b3) in Hc3 as [Hle3 ->];
    [|done|done|by rewrite !files_put_ne].
  rewrite !content_put in *.
  set (c0 := content w (output self)) in *.
  set (pad1 := padding (o1 - Z.of_nat (length c0))) in *.
  assert (Z.of_nat (length (c0 ++ pad1)) = o1) as Hl1.
  { unfold pad1. rewrite length_app, Nat2Z.inj_add, padding_length; lia. }
  assert (Z.of_nat (length (c0 ++ pad1 ++ b1)) = o1 + Z.of_nat (length b1))
    as Hl1'.
  { rewrite app_assoc, length_app, Nat2Z.inj_add. lia. }
  rewrite Hl1' in *.
  set (pad2 := padding (o2 - (o1 + Z.of_nat (length b1)))) in *.
  assert (Z.of_nat (length ((c0 ++ pad1 ++ b1) ++ pad2)) = o2) as Hl2.
  { unfold pad2. rewrite length_app, Nat2Z.inj_add, padding_length; lia. }
  assert (Z.of_nat (length ((c0 ++ pad1 ++ b1) ++ pad2 ++ b2)) =
          o2 + Z.of_nat (length b2)) as Hl2'.
  { rewrite app_assoc, length_app, Nat2Z.inj_add. lia. }
  rewrite Hl2' in *.
  set (pad3 := padding (o3 - (o2 + Z.of_nat (length b2)))) in *.
  assert (Z.of_nat (length (((c0 ++ pad1 ++ b1) ++ pad2 ++ b2) ++ pad3)) = o3)
    as Hl3.
  { unfold pad3. rewrite length_app, Nat2Z.inj_add, padding_length; lia. }
  set (out := ((c0 ++ pad1 ++ b1) ++ pad2 ++ b2) ++ pad3 ++ b3).
  repeat split.
  - replace out with ((c0 ++ pad1) ++ b1 ++ (pad2 ++ b2 ++ pad3 ++ b3))
      by (unfold out; by rewrite <- !app_assoc).
    by apply slice_app.
  - replace out with (((c0 ++ pad1 ++ b1) ++ pad2) ++ b2 ++ (pad3 ++ b3))
      by (unfold out; by rewrite <- !app_assoc).
    by apply slice_app.
  - replace out with ((((c0 ++ pad1 ++ b1) ++ pad2 ++ b2) ++ pad3) ++ b3 ++ [])
      by (unfold out; by rewrite app_nil_r, <- !app_assoc).
    by apply slice_app.
  - intros i Hi.
    replace out with ((c0 ++ pad1 ++ b1) ++ pad2 ++ (b2 ++ pad3 ++ b3))
      by (unfold out; by rewrite <- !app_assoc).
    apply byte_at_padding. unfold pad2. lia.
  - intros i Hi.
    replace out with (((c0 ++ pad1 ++ b1) ++ pad2 ++ b2) ++ pad3 ++ b3)
      by done.
    apply byte_at_padding. lia.
Qed.

(** The three calls do succeed when the artifact has not passed the first
    offset and no partition reaches into the next. *)
Lemma placement_succeeds
    (self : Assembly) (w : World)
    (p1 p2 p3 src1 src2 src3 : string)
    (o1 o2 o3 s1 s2 s3 : Z) (b1 b2 b3 : list byte) :
  offsets (slots self) !! p1 = Some o1 →
  offsets (slots self) !! p2 = Some o2 →
  offsets (slots self) !! p3 = Some o3 →
  sizes (slots self) !! p1 = Some s1 →
  sizes (slots self) !! p2 = Some s2 →
  sizes (slots self) !! p3 = Some s3 →
  Z.of_nat (length (content w (output self))) ≤ o1 →
  o1 + s1 ≤ o2 → o2 + s2 ≤ o3 →
  src1 ≠ output self → src2 ≠ output self → src3 ≠ output self →
  files w !! src1 = Some b1 →
  files w !! src2 = Some b2 →
  files w !! src3 = Some b3 →
  Z.of_nat (length b1) ≤ s1 →
  Z.of_nat (length b2) ≤ s2 →
  Z.of_nat (length b3) ≤ s3 →
  ∃ w3,
    (add_image self src1 p1;; add_image self src2 p2;; add_image self src3 p3)
      w = (inr (), w3).
Proof.
  intros Ho1 Ho2 Ho3 Hs1 Hs2 Hs3 Hpos H12 H23 Hn1 Hn2 Hn3 Hf1 Hf2 Hf3
         Hl1 Hl2 Hl3.
  unfold mbind, IO_bind, bind.
  rewrite (add_image_ok self src1 p1 o1 s1 b1) by done.
  assert (∀ c n b, 0 ≤ n →
            Z.of_nat (length (c ++ padding n ++ b)) =
            Z.of_nat (length c) + n + Z.of_nat (length b)) as Hlen.
  { intros c n b Hn.
    rewrite !length_app, !Nat2Z.inj_add, padding_length; lia. }
  rewrite (add_image_ok self src2 p2 o2 s2 b2); try done.
  - rewrite (add_image_ok self src3 p3 o3 s3 b3); try done.
    + by eexists.
    + by rewrite !files_put_ne.
    + rewrite !content_put, !Hlen; try lia.
      rewrite Hlen; lia.
  - by rewrite files_put_ne.
  - rewrite content_put, Hlen; lia.
Qed.

Lemma offset_correctness_witness :
  let w3 :=
    (add_image Sample.asm "build/zephyr/zephyr.bin" "mcuboot";;
     add_image Sample.asm "app.bin" "image-0";;
     add_image Sample.asm "upd.bin" "image-1") Sample.fresh in
  w3.1 = inr () ∧
  content w3.2 "out.bin" =
    [x01; x02; xff; xff; x0a; x0b; x0c; x0d; xff; xff; x1a; x1b; x1c] ∧
  slice (content w3.2 "out.bin") 0 2 = Sample.boot ∧
  slice (content w3.2 "out.bin") 4 8 = Sample.app ∧
  slice (content w3.2 "out.bin") 10 13 = Sample.upd ∧
  (∀ i, 2 ≤ i < 4 → byte_at (content w3.2 "out.bin") i = Some xff) ∧
  (∀ i, 8 ≤ i < 10 → byte_at (content w3.2 "out.bin") i = Some xff).
Proof.
  intros w3.
  assert (w3 = (inr (), w3.2)) as Hrun by (vm_compute; reflexivity).
  split; [vm_compute; reflexivity|]. split; [vm_compute; reflexivity|].
  apply (offset_correctness Sample.asm Sample.fresh w3.2
           "mcuboot" "image-0" "image-1"
           "build/zephyr/zephyr.bin" "app.bin" "upd.bin"
           0 4 10 4 4 4 Sample.boot Sample.app Sample.upd);
    try reflexivity; try discriminate; try exact Hrun.
Defined.

(** ** The constructor and the stale artifact *)

Lemma errno_of_not_ENOENT f : errno_of f ≠ ENOENT.
Proof. by destruct f. Qed.

Lemma wipe_missing path w : files w !! path = None → wipe path w = w.
Proof.
  intros Hnone. unfold wipe, set_files. rewrite delete_id by done.
  by destruct w.
Qed.

Lemma same_but_wipe path w w' : same_but path w w' ↔ wipe path w = wipe path w'.
Proof.
  unfold same_but, wipe, set_files. split.
  - intros [Hfiles Hfault]. f_equal; [|done].
    apply map_eq. intros p. destruct (decide (p = path)) as [->|Hne].
    + by rewrite !lookup_delete_eq.
    + rewrite !lookup_delete_ne by done. by apply Hfiles.
  - intros [= Hfiles Hfault]. split; [|done]. intros p Hne.
    apply (f_equal (λ m, m !! p)) in Hfiles.
    by rewrite !lookup_delete_ne in Hfiles.
Qed.

Lemma same_but_refl path w : same_but path w w.
Proof. by apply same_but_wipe. Qed.

Lemma same_but_trans path w1 w2 w3 :
  same_but path w1 w2 → same_but path w2 w3 → same_but path w1 w3.
Proof. rewrite !same_but_wipe. congruence. Qed.

Lemma same_but_put path d w : same_but path w (put path d w).
Proof.
  split; [|done]. intros p Hne. by rewrite files_put_ne.
Qed.

Lemma same_but_wipe_self path w : same_but path w (wipe path w).
Proof.
  split; [|done]. intros p Hne. unfold wipe. simpl.
  by rewrite lookup_delete_ne.
Qed.

(** The constructor written out: the partition table is checked first; only
    then is the file at the output path removed, if there is one. *)
Lemma init_eq output bootdir is_secondary edt w :
  init output bootdir is_secondary edt w =
    match find_slots edt is_secondary with
    | inl e => (inl e, w)
    | inr pm =>
        match unlink_fault w !! output with
        | Some f => (inl (OSError (errno_of f)), w)
        | None => (inr {| slots := pm; output := output |}, wipe output w)
        end
    end.
Proof.
  unfold init, mbind, IO_bind, bind, lift, mret, IO_ret, ret, raise.
  destruct (find_slots edt is_secondary) as [e|pm]; [done|].
  unfold catch, os_unlink, OS.unlink.
  destruct (unlink_fault w !! output) as [f|].
  - rewrite bool_decide_eq_true_2 by apply errno_of_not_ENOENT. done.
  - destruct (files w !! output) as [d|] eqn:Hd; [done|].
    rewrite bool_decide_eq_false_2 by (intros H; by apply H).
    by rewrite wipe_missing.
Qed.

(** Removal is not the constructor's first action: the partition table is
    checked before.  With a devicetree that has no bootloader partition the
    constructor raises, and the stale artifact is still there. *)
Lemma init_discards_first_counterexample :
  files Sample.booted !! "out.bin" = Some Sample.boot ∧
  init "out.bin" "build" false Sample.edt_no_boot Sample.booted =
    (inl (MissingPartitionError "mcuboot"), Sample.booted) ∧
  files (init "out.bin" "build" false Sample.edt_no_boot Sample.booted).2
    !! "out.bin" = Some Sample.boot.
Proof.
  split; [reflexivity|].
  assert (init "out.bin" "build" false Sample.edt_no_boot Sample.booted =
            (inl (MissingPartitionError "mcuboot"), Sample.booted)) as Hrun
    by (vm_compute; reflexivity).
  split; [exact Hrun|]. rewrite Hrun. reflexivity.
Qed.

(** C6, as the code has it: the constructor first checks the partition table
    ([find_slots]); when that raises, nothing is removed.  When it passes,
    the file at the output path is removed before anything is placed: a file
    that is there is gone afterwards, no file there is not an error, and a
    failure of the removal with an errno other than ENOENT is raised as the
    OSError (IOError) it is, with every file left as it was. *)
Theorem init_checks_then_discards
    (output bootdir : string) (is_secondary : bool) (edt : EDT) (w : World) :
  (∀ e, find_slots edt is_secondary = inl e →
        init output bootdir is_secondary edt w = (inl e, w)) ∧
  (∀ pm, find_slots edt is_secondary = inr pm →
     (∀ w', OS.unlink output w = inr w' →
            init output bootdir is_secondary edt w =
              (inr {| slots := pm; output := output |}, w') ∧
            files w' !! output = None ∧
            same_but output w w') ∧
     (OS.unlink output w = inl ENOENT →
            files w !! output = None ∧
            init output bootdir is_secondary edt w =
              (inr {| slots := pm; output := output |}, w)) ∧
     (∀ errno, OS.unlink output w = inl errno → errno ≠ ENOENT →
            init output bootdir is_secondary edt w =
              (inl (OSError errno), w))).
Proof.
  split.
  - intros e He. by rewrite init_eq, He.
  - intros pm Hpm. rewrite init_eq, Hpm. unfold OS.unlink.
    destruct (unlink_fault w !! output) as [f|] eqn:Hf.
    + split; [done|]. split.
      * intros [= Herr]. by apply errno_of_not_ENOENT in Herr.
      * by intros errno [= <-] _.
    + destruct (files w !! output) as [d|] eqn:Hd.
      * split; [|done]. intros w' [= <-]. split; [done|]. split.
        -- simpl. by rewrite lookup_delete_eq.
        -- apply same_but_wipe_self.
      * split; [done|]. split.
        -- intros _. split; [done|]. by rewrite wipe_missing.
        -- by intros errno [= <-] Hne.
Qed.

Lemma init_checks_then_discards_witness :
  find_slots Sample.edt true = inr Sample.table ∧
  init "out.bin" "build" true Sample.edt Sample.booted =
    (inr Sample.asm, Sample.fresh) ∧
  init "out.bin" "build" true Sample.edt Sample.fresh =
    (inr Sample.asm, Sample.fresh) ∧
  init "out.bin" "build" true Sample.edt Sample.locked =
    (inl (OSError 13), Sample.locked).
Proof.
  assert (find_slots Sample.edt true = inr Sample.table) as Hpm
    by (vm_compute; reflexivity).
  split; [exact Hpm|].
  destruct (init_checks_then_discards "out.bin" "build" true Sample.edt
              Sample.booted) as [_ Hb].
  destruct (init_checks_then_discards "out.bin" "build" true Sample.edt
              Sample.fresh) as [_ Hf].
  destruct (init_checks_then_discards "out.bin" "build" true Sample.edt
              Sample.locked) as [_ Hl].
  destruct (Hb _ Hpm) as (Hb1 & _ & _).
  destruct (Hf _ Hpm) as (_ & Hf2 & _).
  destruct (Hl _ Hpm) as (_ & _ & Hl3).
  split; [|split].
  - apply (Hb1 Sample.fresh). vm_compute. reflexivity.
  - apply Hf2. reflexivity.
  - apply (Hl3 13); [reflexivity | discriminate].
Defined.

(** ** Running the assembly again *)

Lemma confined_bind {A B} path (c : IO A) (k : A → IO B) :
  confined path c → (∀ a, confined path (k a)) → confined path (c ≫= k).
Proof.
  intros Hc Hk w. unfold mbind, IO_bind, bind.
  specialize (Hc w). destruct (c w) as [[e|a] w1]; [done|].
  simpl in Hc. by eapply same_but_trans, Hk.
Qed.

Lemma confined_ret {A} path (a : A) : confined path (mret a).
Proof. intros w. apply same_but_refl. Qed.

Lemma confined_add_image self source partition :
  confined (output self) (add_image self source partition).
Proof.
  intros w. destruct (add_image_appends self source partition w) as [? ->].
  apply same_but_put.
Qed.

(** [main] written out: once the constructor is through, what follows starts
    from the world without the old artifact. *)
Lemma main_eq args edt w :
  main args edt w =
    match find_slots edt (bool_decide (arg_secondary args ≠ None)) with
    | inl e => (inl e, w)
    | inr pm =>
        match unlink_fault w !! arg_output args with
        | Some f => (inl (OSError (errno_of f)), w)
        | None =>
            let out := {| slots := pm; output := arg_output args |} in
            (add_image out
               (path_join (path_join (arg_bootdir args) "zephyr") "zephyr.bin")
               "mcuboot";;
             add_image out (arg_primary args) "image-0";;
             match arg_secondary args with
             | Some secondary => add_image out secondary "image-1"
             | None => mret ()
             end) (wipe (arg_output args) w)
        end
    end.
Proof.
  unfold main. unfold mbind at 1. unfold IO_bind at 1. unfold bind at 1.
  rewrite init_eq.
  destruct (find_slots edt _) as [e|pm]; [done|].
  by destruct (unlink_fault w !! arg_output args).
Qed.

(** What a run leaves behind differs from what it found at most in the
    artifact. *)
Lemma confined_main args edt : confined (arg_output args) (main args edt).
Proof.
  intros w. rewrite main_eq.
  destruct (find_slots edt _) as [e|pm]; [apply same_but_refl|].
  destruct (unlink_fault w !! arg_output args); [apply same_but_refl|].
  cbv zeta. eapply same_but_trans; [apply same_but_wipe_self|].
  set (out := {| slots := pm; output := arg_output args |}).
  change (arg_output args) with (output out).
  apply confined_bind; [apply confined_add_image|]. intros _.
  apply confined_bind; [apply confined_add_image|]. intros _.
  destruct (arg_secondary args);
    [apply confined_add_image | apply confined_ret].
Qed.

(** A run whose constructor gets through does not depend on the artifact it
    found. *)
Lemma main_same_but args edt pm w w' :
  find_slots edt (bool_decide (arg_secondary args ≠ None)) = inr pm →
  unlink_fault w !! arg_output args = None →
  same_but (arg_output args) w w' →
  main args edt w' = main args edt w.
Proof.
  intros Hpm Hfault Hsame. rewrite !main_eq, Hpm.
  destruct Hsame as [Hfiles Hfaults]. rewrite <- Hfaults, Hfault. cbv zeta.
  assert (wipe (arg_output args) w' = wipe (arg_output args) w) as ->; [|done].
  symmetry. by apply same_but_wipe.
Qed.

(** C9: with the same command line, devicetree and source files, running the
    assembly a second time on what the first run left gives the outcome and
    the artifact of the first run, byte for byte; and when the constructor
    gets through (the partition table passes the checks and the removal is
    not refused) the run gives the same outcome and artifact whatever file
    was at the output path before. *)
Theorem assembly_idempotent (args : Args) (edt : EDT) (w : World) :
  main args edt (main args edt w).2 = main args edt w ∧
  (∀ w' pm,
     find_slots edt (bool_decide (arg_secondary args ≠ None)) = inr pm →
     unlink_fault w !! arg_output args = None →
     same_but (arg_output args) w w' →
     main args edt w' = main args edt w).
Proof.
  split; [|intros w' pm; apply main_same_but].
  pose proof (confined_main args edt w) as Hsame.
  destruct (find_slots edt (bool_decide (arg_secondary args ≠ None)))
    as [e|pm] eqn:Hpm.
  { rewrite (main_eq args edt w), Hpm. cbn [snd]. by rewrite main_eq, Hpm. }
  destruct (unlink_fault w !! arg_output args) as [f|] eqn:Hfault.
  { rewrite (main_eq args edt w), Hpm, Hfault. cbn [snd].
    by rewrite main_eq, Hpm, Hfault. }
  by apply (main_same_but args edt pm).
Qed.

Lemma assembly_idempotent_witness :
  find_slots Sample.edt true = inr Sample.table ∧
  unlink_fault Sample.fresh !! "out.bin" = None ∧
  same_but "out.bin" Sample.fresh Sample.passed ∧
  main Sample.args Sample.edt Sample.passed =
    main Sample.args Sample.edt Sample.fresh ∧
  main Sample.args Sample.edt (main Sample.args Sample.edt Sample.passed).2 =
    main Sample.args Sample.edt Sample.passed ∧
  content (main Sample.args Sample.edt Sample.passed).2 "out.bin" =
    [x01; x02; xff; xff; x0a; x0b; x0c; x0d; xff; xff; x1a; x1b; x1c].
Proof.
  assert (find_slots Sample.edt true = inr Sample.table) as Hpm
    by (vm_compute; reflexivity).
  assert (unlink_fault Sample.fresh !! "out.bin" = None) as Hfault
    by reflexivity.
  assert (same_but "out.bin" Sample.fresh Sample.passed) as Hsame.
  { apply same_but_wipe. vm_compute. reflexivity. }
  repeat (split; [assumption|]).
  split; [|split].
  - exact (proj2 (assembly_idempotent Sample.args Sample.edt Sample.fresh)
             Sample.passed Sample.table Hpm Hfault Hsame).
  - exact (proj1 (assembly_idempotent Sample.args Sample.edt Sample.passed)).
  - vm_compute. reflexivity.
Defined.

(** * Further properties *)

(** ** same_keys and the checks *)

(** [same_keys] returns True exactly when the two dicts have the same key
    set, whatever their values. *)
Theorem same_keys_decides {A B} (a : gmap string A) (b : gmap string B) :
  same_keys a b = bool_decide (dom a = dom b).
Proof.
  destruct (same_keys a b) eqn:Hs.
  - apply same_keys_true in Hs. by rewrite bool_decide_eq_true_2.
  - apply same_keys_false in Hs. by rewrite bool_decide_eq_false_2.
Qed.

(** With identical key sets, the checks name the first missing partition in
    the order mcuboot, image-0, image-1, the last only when a secondary image
    is asked for. *)
Theorem check_slots_first_missing
    (offsets sizes : gmap string Z) (is_secondary : bool) :
  dom offsets = dom sizes →
  (offsets !! "mcuboot" = None →
   check_slots offsets sizes is_secondary =
     inl (MissingPartitionError "mcuboot")) ∧
  (is_Some (offsets !! "mcuboot") → offsets !! "image-0" = None →
   check_slots offsets sizes is_secondary =
     inl (MissingPartitionError "image-0")) ∧
  (is_Some (offsets !! "mcuboot") → is_Some (offsets !! "image-0") →
   offsets !! "image-1" = None → is_secondary = true →
   check_slots offsets sizes is_secondary =
     inl (MissingPartitionError "image-1")).
Proof.
  intros Hdom. apply same_keys_true in Hdom.
  unfold check_slots. rewrite Hdom. simpl. repeat split.
  - intros Hm. apply contains_false in Hm. by rewrite Hm.
  - intros Hm H0. apply elem_of_dom, contains_true in Hm.
    apply contains_false in H0. by rewrite Hm, H0.
  - intros Hm H0 H1 ->. apply elem_of_dom, contains_true in Hm.
    apply elem_of_dom, contains_true in H0.
    apply contains_false in H1. by rewrite Hm, H0, H1.
Qed.

Lemma check_slots_first_missing_witness :
  let offsets : gmap string Z := {[ "image-1" := 10 ]} in
  let sizes : gmap string Z := {[ "image-1" := 4 ]} in
  dom offsets = dom sizes ∧
  check_slots offsets sizes true = inl (MissingPartitionError "mcuboot") ∧
  check_slots (<["mcuboot" := 0]> offsets) (<["mcuboot" := 4]> sizes) true =
    inl (MissingPartitionError "image-0").
Proof.
  intros offsets sizes.
  assert (dom offsets = dom sizes) as Hdom.
  { apply same_keys_true. vm_compute. reflexivity. }
  assert (dom (<["mcuboot" := 0]> offsets) = dom (<["mcuboot" := 4]> sizes))
    as Hdom'.
  { apply same_keys_true. vm_compute. reflexivity. }
  split; [exact Hdom|]. split.
  - apply (check_slots_first_missing offsets sizes true Hdom). reflexivity.
  - apply (check_slots_first_missing _ _ true Hdom').
    + exists 0. reflexivity.
    + reflexivity.
Defined.

(** What the checks let through is what they were given, and it has the same
    keys in both dicts and every partition the assembly is going to place. *)
Lemma check_slots_inr offsets sizes is_secondary pm :
  check_slots offsets sizes is_secondary = inr pm →
  pm = {| offsets := offsets; sizes := sizes |} ∧
  dom offsets = dom sizes ∧
  "mcuboot" ∈ dom offsets ∧ "image-0" ∈ dom offsets ∧
  (is_secondary = true → "image-1" ∈ dom offsets).
Proof.
  unfold check_slots.
  destruct (same_keys offsets sizes) eqn:Hs; [|done]. simpl.
  destruct (contains offsets "mcuboot") eqn:Hm; [|done]. simpl.
  destruct (contains offsets "image-0") eqn:H0; [|done]. simpl.
  destruct (contains offsets "image-1") eqn:H1; simpl.
  - intros [= <-]. apply same_keys_true in Hs.
    apply contains_true in Hm, H0, H1. done.
  - destruct is_secondary; [done|]. intros [= <-].
    apply same_keys_true in Hs. apply contains_true in Hm, H0. done.
Qed.


(** With the same keys on both sides and the mandatory partitions present,
    the checks pass. *)
Lemma check_slots_passes (offsets sizes : gmap string Z) (is_secondary : bool) :
  dom offsets = dom sizes →
  "mcuboot" ∈ dom offsets →
  "image-0" ∈ dom offsets →
  (is_secondary = true → "image-1" ∈ dom offsets) →
  check_slots offsets sizes is_secondary =
    inr {| offsets := offsets; sizes := sizes |}.
Proof.
  intros Hdom Hm H0 H1.
  apply same_keys_true in Hdom. apply contains_true in Hm, H0.
  unfold check_slots. rewrite Hdom, Hm, H0. simpl.
  destruct is_secondary; simpl.
  - specialize (H1 eq_refl). apply contains_true in H1. by rewrite H1.
  - by rewrite andb_false_r.
Qed.

(** ** Reading the devicetree *)

Lemma add_children_app pm cs1 cs2 :
  add_children pm (cs1 ++ cs2) =
    match add_children pm cs1 with
    | inl e => inl e
    | inr pm' => add_children pm' cs2
    end.
Proof.
  revert pm. induction cs1 as [|c cs1 IH]; intros pm; simpl; [done|].
  destruct (add_child pm c); [done|]. apply IH.
Qed.

(** The two loops visit the children of all nodes in one row. *)
Lemma add_nodes_flat pm ns :
  add_nodes pm ns = add_children pm (concat (children <$> ns)).
Proof.
  revert pm. induction ns as [|n ns IH]; intros pm; simpl; [done|].
  rewrite add_children_app.
  destruct (add_children pm (children n)); [done|]. apply IH.
Qed.

Lemma read_slots_flat edt :
  read_slots edt =
    add_children {| offsets := ∅; sizes := ∅ |} (all_children edt).
Proof. unfold read_slots, all_children. apply add_nodes_flat. Qed.

Lemma add_children_inl pm cs e :
  add_children pm cs = inl e ↔
  e = IndexError ∧ ∃ c, c ∈ cs ∧ is_Some (label c) ∧ regs c = [].
Proof.
  revert pm. induction cs as [|c cs IH]; intros pm; simpl.
  - split; [done|]. intros (_ & c & Hc & _). by apply elem_of_nil in Hc.
  - unfold add_child.
    destruct (label c) as [l|] eqn:Hl; [destruct (regs c) as [|r rs] eqn:Hr|].
    + split.
      * intros [= <-]. split; [done|]. exists c.
        split; [by left|]. by rewrite Hl.
      * by intros [-> _].
    + rewrite IH. split.
      * intros (-> & c' & Hc' & Hbad). split; [done|]. exists c'.
        split; [by right|done].
      * intros (-> & c' & Hc' & Hlab & Hregs). split; [done|]. exists c'.
        apply elem_of_cons in Hc' as [->|Hc']; [congruence|done].
    + rewrite IH. split.
      * intros (-> & c' & Hc' & Hbad). split; [done|]. exists c'.
        split; [by right|done].
      * intros (-> & c' & Hc' & Hlab & Hregs). split; [done|]. exists c'.
        apply elem_of_cons in Hc' as [->|Hc']; [|done].
        rewrite Hl in Hlab. by destruct Hlab.
Qed.

(** Reading the devicetree fails exactly when some labelled child has no
    register, and then with the IndexError of [child.regs[0]]. *)
Theorem read_slots_fails (edt : EDT) (e : exn) :
  read_slots edt = inl e ↔
  e = IndexError ∧
  ∃ c, c ∈ all_children edt ∧ is_Some (label c) ∧ regs c = [].
Proof. rewrite read_slots_flat. apply add_children_inl. Qed.

Lemma last_labelled_snoc l cs c :
  last_labelled l (cs ++ [c]) =
    if decide (label c = Some l) then head (regs c) else last_labelled l cs.
Proof.
  unfold last_labelled. rewrite filter_app, filter_cons, filter_nil.
  destruct (decide (label c = Some l)).
  - by rewrite last_snoc.
  - by rewrite app_nil_r.
Qed.

Lemma add_children_lookup pm cs pm' l :
  add_children pm cs = inr pm' →
  offsets pm' !! l =
    from_option (λ r, Some (reg_addr r)) (offsets pm !! l) (last_labelled l cs) ∧
  sizes pm' !! l =
    from_option (λ r, Some (reg_size r)) (sizes pm !! l) (last_labelled l cs).
Proof.
  revert pm'. induction cs as [|c cs IH] using rev_ind; intros pm'.
  - simpl. intros [= <-]. done.
  - rewrite add_children_app, last_labelled_snoc.
    destruct (add_children pm cs) as [e|pm1]; [done|].
    specialize (IH pm1 eq_refl) as [IHo IHs]. simpl. unfold add_child.
    destruct (label c) as [l'|] eqn:Hl.
    + destruct (regs c) as [|r rs]; [done|]. intros [= <-]. simpl.
      destruct (decide (Some l' = Some l)) as [[= ->]|Hne].
      * by rewrite !lookup_insert_eq.
      * rewrite !lookup_insert_ne by congruence. done.
    + intros [= <-]. by rewrite decide_False.
Qed.

(** When the devicetree is read, a label maps to the address and the size of
    the first register of the last child that carries it; a label no child
    carries is in neither dict, and children without a label leave no
    trace. *)
Theorem read_slots_lookup (edt : EDT) (pm : PartitionMap) (l : string) :
  read_slots edt = inr pm →
  offsets pm !! l = reg_addr <$> last_labelled l (all_children edt) ∧
  sizes pm !! l = reg_size <$> last_labelled l (all_children edt).
Proof.
  rewrite read_slots_flat. intros Hrun.
  destruct (add_children_lookup _ _ _ l Hrun) as [-> ->]. simpl.
  rewrite !lookup_empty. by destruct (last_labelled l (all_children edt)).
Qed.

Lemma read_slots_lookup_witness :
  read_slots Sample.edt = inr Sample.table ∧
  offsets Sample.table !! "image-1" = Some 10 ∧
  sizes Sample.table !! "image-1" = Some 4 ∧
  offsets Sample.table !! "scratch" = None.
Proof.
  assert (read_slots Sample.edt = inr Sample.table) as Hrun
    by (vm_compute; reflexivity).
  split; [exact Hrun|].
  destruct (read_slots_lookup Sample.edt Sample.table "image-1" Hrun)
    as [Ho Hs].
  destruct (read_slots_lookup Sample.edt Sample.table "scratch" Hrun)
    as [Hn _].
  split; [|split].
  - etrans; [exact Ho|]. vm_compute. reflexivity.
  - etrans; [exact Hs|]. vm_compute. reflexivity.
  - etrans; [exact Hn|]. vm_compute. reflexivity.
Defined.

Lemma MissingPartitionError_not_Consistency name :
  MissingPartitionError name ≠ ConsistencyError.
Proof. unfold MissingPartitionError, ConsistencyError. by cbv. Qed.

(** The "Inconsistent data" exception cannot come out of [find_slots]: the
    two dicts it compares are filled together, key by key. *)
Theorem find_slots_never_inconsistent (edt : EDT) (is_secondary : bool) :
  find_slots edt is_secondary ≠ inl ConsistencyError.
Proof.
  unfold find_slots. destruct (read_slots edt) as [e|pm] eqn:Hread.
  - rewrite read_slots_flat in Hread.
    apply add_children_inl in Hread as [-> _]. done.
  - apply read_slots_same_keys, same_keys_true in Hread.
    unfold check_slots. rewrite Hread. simpl.
    repeat match goal with
           | |- context [if ?c then _ else _] => destruct c
           end; try done;
      intros [= Hc]; by apply MissingPartitionError_not_Consistency in Hc.
Qed.

Lemma find_slots_never_inconsistent_witness :
  find_slots Sample.edt_no_boot true ≠ inl ConsistencyError ∧
  find_slots Sample.edt_no_boot true = inl (MissingPartitionError "mcuboot").
Proof.
  split; [|vm_compute; reflexivity].
  exact (find_slots_never_inconsistent Sample.edt_no_boot true).
Defined.

Lemma read_slots_fails_witness :
  read_slots Sample.edt_no_reg = inl IndexError.
Proof.
  apply (proj2 (read_slots_fails Sample.edt_no_reg IndexError)).
  split; [reflexivity|].
  exists {| label := Some "image-0"; regs := [] |}.
  split; [|split; [by eexists|reflexivity]].
  vm_compute. apply list_elem_of_further, list_elem_of_here.
Defined.

(** [find_slots] succeeds exactly when the devicetree can be read and has a
    child labelled mcuboot, one labelled image-0 and, when a secondary image
    is asked for, one labelled image-1 (the comparison of the key sets never
    decides); the table it stores is the one read, with the same keys in
    both dicts. *)
Theorem find_slots_succeeds_iff
    (edt : EDT) (is_secondary : bool) (pm : PartitionMap) :
  (find_slots edt is_secondary = inr pm ↔
   read_slots edt = inr pm ∧
   "mcuboot" ∈ dom (offsets pm) ∧ "image-0" ∈ dom (offsets pm) ∧
   (is_secondary = true → "image-1" ∈ dom (offsets pm))) ∧
  (find_slots edt is_secondary = inr pm →
   dom (offsets pm) = dom (sizes pm)).
Proof.
  unfold find_slots. destruct (read_slots edt) as [e|pm0] eqn:Hread.
  { split; [|done]. split; [done|]. by intros [? _]. }
  pose proof (read_slots_same_keys _ _ Hread) as Hdom.
  assert (pm0 = {| offsets := offsets pm0; sizes := sizes pm0 |}) as Heta
    by (by destruct pm0).
  split; [split|].
  - intros Hc. apply check_slots_inr in Hc as (-> & _ & Hm & H0 & H1).
    rewrite <- Heta. done.
  - intros ([= ->] & Hm & H0 & H1).
    rewrite (check_slots_passes _ _ _ Hdom Hm H0 H1). by rewrite <- Heta.
  - intros Hc. apply check_slots_inr in Hc as (-> & ? & _). done.
Qed.

Lemma find_slots_succeeds_iff_witness :
  read_slots Sample.edt = inr Sample.table ∧
  find_slots Sample.edt true = inr Sample.table ∧
  dom (offsets Sample.table) = dom (sizes Sample.table).
Proof.
  assert (read_slots Sample.edt = inr Sample.table) as Hread
    by (vm_compute; reflexivity).
  destruct (find_slots_succeeds_iff Sample.edt true Sample.table)
    as [[_ Hback] Hdom].
  assert (find_slots Sample.edt true = inr Sample.table) as Hfind.
  { apply Hback. split; [exact Hread|].
    split; [|split; [|intros _]]; apply contains_true; vm_compute; reflexivity. }
  split; [exact Hread|]. split; [exact Hfind|]. exact (Hdom Hfind).
Defined.

(** ** Further outcomes of [add_image] *)

(** A partition name that the table does not have makes [add_image] raise
    KeyError (the specification's UnknownPartitionError) before anything is
    compared or read.  Nothing is written, but the artifact has been opened
    for appending by then: it exists afterwards, empty if it was not there. *)
Theorem add_image_unknown_partition
    (self : Assembly) (source partition : string) (w : World) :
  offsets (slots self) !! partition = None →
  (add_image self source partition w).1 = inl (KeyError partition) ∧
  files (add_image self source partition w).2 !! output self =
    Some (content w (output self)) ∧
  (∀ p, p ≠ output self →
        files (add_image self source partition w).2 !! p = files w !! p).
Proof.
  intros Hnone. rewrite add_image_eq. cbv zeta. rewrite Hnone. cbn [fst snd].
  split; [done|]. split; [apply files_put_eq|].
  intros p Hp. by rewrite files_put_ne.
Qed.

Lemma add_image_unknown_partition_witness :
  Sample.offsets_at "scratch" = None ∧
  (add_image Sample.asm "app.bin" "scratch" Sample.fresh).1 =
    inl (KeyError "scratch") ∧
  files Sample.fresh !! "out.bin" = None ∧
  files (add_image Sample.asm "app.bin" "scratch" Sample.fresh).2 !! "out.bin" =
    Some [].
Proof.
  assert (Sample.offsets_at "scratch" = None) as Hnone by reflexivity.
  split; [exact Hnone|].
  destruct (add_image_unknown_partition Sample.asm "app.bin" "scratch"
              Sample.fresh Hnone) as (Hr & Hf & _).
  split; [exact Hr|]. split; [reflexivity|]. exact Hf.
Defined.

(** A source file that does not exist is found out only after the padding:
    with the cursor at or before the partition's offset, [add_image] raises
    the OSError of the failed [open] and leaves the artifact padded with
    0xFF up to the offset. *)
Theorem add_image_missing_source
    (self : Assembly) (source partition : string) (offset : Z) (w : World) :
  offsets (slots self) !! partition = Some offset →
  source ≠ output self →
  files w !! source = None →
  Z.of_nat (length (content w (output self))) ≤ offset →
  (add_image self source partition w).1 = inl (OSError ENOENT) ∧
  content (add_image self source partition w).2 (output self) =
    content w (output self) ++
    padding (offset - Z.of_nat (length (content w (output self)))) ∧
  Z.of_nat (length (content (add_image self source partition w).2
                            (output self))) = offset.
Proof.
  intros Hoff Hne Hsrc Hle. rewrite add_image_eq. cbv zeta. rewrite Hoff.
  rewrite bool_decide_eq_false_2 by lia.
  rewrite files_put_ne, Hsrc by done. cbn [fst snd]. rewrite content_put.
  split; [done|]. split; [done|].
  rewrite length_app, Nat2Z.inj_add, padding_length; lia.
Qed.

Lemma add_image_missing_source_witness :
  Sample.offsets_at "image-1" = Some 10 ∧
  "none.bin" ≠ output Sample.asm ∧
  files Sample.booted !! "none.bin" = None ∧
  Z.of_nat (length (content Sample.booted "out.bin")) ≤ 10 ∧
  (add_image Sample.asm "none.bin" "image-1" Sample.booted).1 =
    inl (OSError ENOENT) ∧
  content (add_image Sample.asm "none.bin" "image-1" Sample.booted).2 "out.bin" =
    [x01; x02; xff; xff; xff; xff; xff; xff; xff; xff].
Proof.
  assert (Sample.offsets_at "image-1" = Some 10) as Hoff by reflexivity.
  assert ("none.bin" ≠ output Sample.asm) as Hne by discriminate.
  assert (files Sample.booted !! "none.bin" = None) as Hsrc by reflexivity.
  assert (Z.of_nat (length (content Sample.booted "out.bin")) ≤ 10) as Hle
    by (vm_compute; discriminate).
  repeat (split; [assumption|]).
  destruct (add_image_missing_source Sample.asm "none.bin" "image-1" 10
              Sample.booted Hoff Hne Hsrc Hle) as (Hr & Hc & _).
  split; [exact Hr|]. etrans; [exact Hc|reflexivity].
Defined.

(** For a partition the table has and a source file other than the artifact,
    [add_image] returns exactly when the cursor has not passed the offset and
    the source is no longer than the partition's size; the artifact then ends
    with the source, and the cursor stands at the offset plus the source's
    length. *)
Theorem add_image_succeeds_iff
    (self : Assembly) (source partition : string) (offset size : Z)
    (ibuf : list byte) (w : World) :
  offsets (slots self) !! partition = Some offset →
  sizes (slots self) !! partition = Some size →
  source ≠ output self →
  files w !! source = Some ibuf →
  ((add_image self source partition w).1 = inr () ↔
   Z.of_nat (length (content w (output self))) ≤ offset ∧
   Z.of_nat (length ibuf) ≤ size) ∧
  ((add_image self source partition w).1 = inr () →
   slice (content (add_image self source partition w).2 (output self))
         offset (offset + Z.of_nat (length ibuf)) = ibuf ∧
   Z.of_nat (length (content (add_image self source partition w).2
                             (output self))) =
     offset + Z.of_nat (length ibuf)).
Proof.
  intros Hoff Hsz Hne Hsrc.
  assert ((add_image self source partition w).1 = inr () →
          Z.of_nat (length (content w (output self))) ≤ offset ∧
          Z.of_nat (length ibuf) ≤ size) as Hfwd.
  { rewrite add_image_eq. cbv zeta. rewrite Hoff, Hsz.
    case_bool_decide; [done|]. rewrite files_put_ne, Hsrc by done.
    case_bool_decide; [done|]. intros _. lia. }
  split; [split; [exact Hfwd|]|].
  - intros [Hle Hfit].
    by rewrite (add_image_ok self source partition offset size ibuf).
  - intros Hok. destruct (Hfwd Hok) as [Hle Hfit].
    rewrite (add_image_ok self source partition offset size ibuf) by done.
    cbn [snd]. rewrite content_put.
    set (old := content w (output self)) in *.
    assert (Z.of_nat (length (old ++ padding (offset - Z.of_nat (length old))))
            = offset) as Hlen.
    { rewrite length_app, Nat2Z.inj_add, padding_length; lia. }
    split.
    + replace (old ++ padding (offset - Z.of_nat (length old)) ++ ibuf)
        with ((old ++ padding (offset - Z.of_nat (length old))) ++ ibuf ++ [])
        by (by rewrite app_nil_r, <- app_assoc).
      by apply slice_app.
    + rewrite app_assoc, length_app, Nat2Z.inj_add. lia.
Qed.

Lemma add_image_succeeds_iff_witness :
  Sample.offsets_at "image-0" = Some 4 ∧
  Sample.sizes_at "image-0" = Some 4 ∧
  "upd.bin" ≠ output Sample.asm ∧
  files Sample.booted !! "upd.bin" = Some Sample.upd ∧
  (add_image Sample.asm "upd.bin" "image-0" Sample.booted).1 = inr () ∧
  Z.of_nat (length (content (add_image Sample.asm "upd.bin" "image-0"
                               Sample.booted).2 "out.bin")) = 7.
Proof.
  assert (Sample.offsets_at "image-0" = Some 4) as Hoff by reflexivity.
  assert (Sample.sizes_at "image-0" = Some 4) as Hsz by reflexivity.
  assert ("upd.bin" ≠ output Sample.asm) as Hne by discriminate.
  assert (files Sample.booted !! "upd.bin" = Some Sample.upd) as Hsrc
    by reflexivity.
  repeat (split; [assumption|]).
  destruct (add_image_succeeds_iff Sample.asm "upd.bin" "image-0" 4 4
              Sample.upd Sample.booted Hoff Hsz Hne Hsrc) as [[_ Hback] Hpost].
  assert ((add_image Sample.asm "upd.bin" "image-0" Sample.booted).1 = inr ())
    as Hok.
  { apply Hback. split; vm_compute; discriminate. }
  split; [exact Hok|]. exact (proj2 (Hpost Hok)).
Defined.



(** There is no way back: once a source that is not empty has been placed in
    a partition, a call for that partition again, or for any partition at
    that offset or before it, raises "Partitions not in order" and leaves
    the world as it is. *)
Theorem add_image_no_way_back
    (self : Assembly) (source partition source' partition' : string)
    (offset offset' : Z) (ibuf : list byte) (w w1 : World) :
  offsets (slots self) !! partition = Some offset →
  offsets (slots self) !! partition' = Some offset' →
  source ≠ output self →
  files w !! source = Some ibuf →
  ibuf ≠ [] →
  offset' ≤ offset →
  add_image self source partition w = (inr (), w1) →
  add_image self source' partition' w1 = (inl OutOfOrderError, w1).
Proof.
  intros Hoff Hoff' Hne Hsrc Hnil Hle Hrun.
  apply (add_image_ok_inv _ _ _ offset ibuf) in Hrun as [Hpos ->]; [|done..].
  rewrite add_image_eq. cbv zeta. rewrite Hoff', content_put.
  rewrite bool_decide_eq_true_2.
  - by rewrite put_put.
  - rewrite !length_app, !Nat2Z.inj_add, padding_length by lia.
    destruct ibuf; [done|]. simpl length. lia.
Qed.

Lemma add_image_no_way_back_witness :
  add_image Sample.asm "app.bin" "image-0" Sample.booted =
    (inr (), (add_image Sample.asm "app.bin" "image-0" Sample.booted).2) ∧
  add_image Sample.asm "app.bin" "image-0"
    (add_image Sample.asm "app.bin" "image-0" Sample.booted).2 =
    (inl OutOfOrderError,
     (add_image Sample.asm "app.bin" "image-0" Sample.booted).2).
Proof.
  assert (add_image Sample.asm "app.bin" "image-0" Sample.booted =
          (inr (), (add_image Sample.asm "app.bin" "image-0" Sample.booted).2))
    as Hrun by (vm_compute; reflexivity).
  split; [exact Hrun|].
  apply (add_image_no_way_back Sample.asm "app.bin" "image-0"
           "app.bin" "image-0" 4 4 Sample.app Sample.booted);
    try reflexivity; try discriminate; try exact Hrun.
Defined.

(** ** The whole assembly *)

Lemma put_wipe path d w : put path d (wipe path w) = put path d w.
Proof. unfold put, wipe, set_files. simpl. by rewrite insert_delete_eq. Qed.

Lemma content_wipe path w : content (wipe path w) path = [].
Proof. unfold content, wipe. simpl. by rewrite lookup_delete_eq. Qed.

Lemma files_wipe_ne path w p :
  p ≠ path → files (wipe path w) !! p = files w !! p.
Proof. intros Hne. unfold wipe. simpl. by rewrite lookup_delete_ne. Qed.



Lemma find_slots_inr edt is_secondary pm :
  find_slots edt is_secondary = inr pm →
  dom (offsets pm) = dom (sizes pm) ∧
  "mcuboot" ∈ dom (offsets pm) ∧ "image-0" ∈ dom (offsets pm) ∧
  (is_secondary = true → "image-1" ∈ dom (offsets pm)).
Proof.
  unfold find_slots. destruct (read_slots edt) as [e|pm0]; [done|].
  intros Hc. by apply check_slots_inr in Hc as (-> & ? & ? & ? & ?).
Qed.




(** What a constructor that returns has done: the assembler it gives has the
    output path it was given and the partition table that [find_slots] has
    checked, with the same keys in both dicts and the partitions that are
    going to be placed; no file is at the output path any more, so that the
    first placement starts from an empty artifact; and no other file has
    changed. *)
Theorem init_postcondition
    (output0 bootdir : string) (is_secondary : bool) (edt : EDT)
    (w w' : World) (self : Assembly) :
  init output0 bootdir is_secondary edt w = (inr self, w') →
  output self = output0 ∧
  find_slots edt is_secondary = inr (slots self) ∧
  dom (offsets (slots self)) = dom (sizes (slots self)) ∧
  "mcuboot" ∈ dom (offsets (slots self)) ∧
  "image-0" ∈ dom (offsets (slots self)) ∧
  (is_secondary = true → "image-1" ∈ dom (offsets (slots self))) ∧
  files w' !! output0 = None ∧
  content w' output0 = [] ∧
  same_but output0 w w'.
Proof.
  rewrite init_eq.
  destruct (find_slots edt is_secondary) as [e|pm] eqn:Hfind; [done|].
  destruct (unlink_fault w !! output0); [done|]. intros [= <- <-].
  pose proof (find_slots_inr _ _ _ Hfind) as (Hdom & Hm & H0 & H1).
  cbn [output slots].
  do 6 (split; [done|]). split; [|split].
  - unfold wipe. simpl. by rewrite lookup_delete_eq.
  - apply content_wipe.
  - apply same_but_wipe_self.
Qed.

Lemma init_postcondition_witness :
  init "out.bin" "build" true Sample.edt Sample.passed =
    (inr Sample.asm, Sample.fresh) ∧
  files Sample.fresh !! "out.bin" = None ∧
  same_but "out.bin" Sample.passed Sample.fresh.
Proof.
  assert (init "out.bin" "build" true Sample.edt Sample.passed =
            (inr Sample.asm, Sample.fresh)) as Hrun
    by (vm_compute; reflexivity).
  split; [exact Hrun|].
  destruct (init_postcondition _ _ _ _ _ _ _ Hrun)
    as (_ & _ & _ & _ & _ & _ & Hgone & _ & Hsame).
  split; [exact Hgone|exact Hsame].
Defined.

(** The first placement after the constructor: the artifact is not there. *)
Lemma add_image_first self source partition offset size ibuf w :
  offsets (slots self) !! partition = Some offset →
  sizes (slots self) !! partition = Some size →
  source ≠ output self →
  files w !! source = Some ibuf →
  0 ≤ offset →
  Z.of_nat (length ibuf) ≤ size →
  add_image self source partition (wipe (output self) w) =
    (inr (), put (output self) (padding offset ++ ibuf) w).
Proof.
  intros Hoff Hsz Hne Hsrc Hpos Hfit.
  rewrite (add_image_ok self source partition offset size ibuf);
    rewrite ?content_wipe, ?files_wipe_ne; try done.
  simpl. by rewrite Z.sub_0_r, put_wipe.
Qed.

(** A later placement: the artifact holds [d]. *)
Lemma add_image_next self source partition offset size ibuf d w :
  offsets (slots self) !! partition = Some offset →
  sizes (slots self) !! partition = Some size →
  source ≠ output self →
  files w !! source = Some ibuf →
  Z.of_nat (length d) ≤ offset →
  Z.of_nat (length ibuf) ≤ size →
  add_image self source partition (put (output self) d w) =
    (inr (), put (output self)
               (d ++ padding (offset - Z.of_nat (length d)) ++ ibuf) w).
Proof.
  intros Hoff Hsz Hne Hsrc Hpos Hfit.
  rewrite (add_image_ok self source partition offset size ibuf);
    rewrite ?content_put, ?files_put_ne; try done.
  by rewrite put_put.
Qed.

Lemma padding_app_length (n : Z) (b : list byte) :
  0 ≤ n → Z.of_nat (length (padding n ++ b)) = n + Z.of_nat (length b).
Proof.
  intros Hn. rewrite length_app, Nat2Z.inj_add, padding_length; lia.
Qed.

(** A run without a secondary image: when the table passes the checks, the
    removal is not refused, the bootloader and the primary image are files
    other than the artifact that fit their partitions, and the bootloader
    ends at or before the offset of image-0, [main] returns, and the artifact
    is 0xFF up to the offset of mcuboot, the bootloader, 0xFF up to the
    offset of image-0, and the primary image: nothing before, nothing after,
    and image-1 is not looked at. *)
Theorem main_single_layout
    (args : Args) (edt : EDT) (w : World) (pm : PartitionMap)
    (om o0 sm s0 : Z) (bb b0 : list byte) :
  arg_secondary args = None →
  find_slots edt false = inr pm →
  unlink_fault w !! arg_output args = None →
  offsets pm !! "mcuboot" = Some om → sizes pm !! "mcuboot" = Some sm →
  offsets pm !! "image-0" = Some o0 → sizes pm !! "image-0" = Some s0 →
  path_join (path_join (arg_bootdir args) "zephyr") "zephyr.bin"
    ≠ arg_output args →
  arg_primary args ≠ arg_output args →
  files w !! path_join (path_join (arg_bootdir args) "zephyr") "zephyr.bin"
    = Some bb →
  files w !! arg_primary args = Some b0 →
  0 ≤ om →
  om + Z.of_nat (length bb) ≤ o0 →
  Z.of_nat (length bb) ≤ sm →
  Z.of_nat (length b0) ≤ s0 →
  main args edt w =
    (inr (),
     put (arg_output args)
         (padding om ++ bb ++
          padding (o0 - (om + Z.of_nat (length bb))) ++ b0) w).
Proof.
  intros Hsec Hfind Hfault Hom Hsm Ho0 Hs0 Hnb Hn0 Hfb Hf0 Hpos Hgap Hfitb
         Hfit0.
  rewrite main_eq, Hsec. rewrite bool_decide_eq_false_2 by (by intros H).
  rewrite Hfind, Hfault. cbv zeta.
  set (out := {| slots := pm; output := arg_output args |}).
  unfold mbind, IO_bind, bind.
  change (arg_output args) with (output out) at 1.
  rewrite (add_image_first out _ "mcuboot" om sm bb) by done.
  rewrite (add_image_next out _ "image-0" o0 s0 b0);
    rewrite ?padding_app_length; try done.
  unfold mret, IO_ret, ret. by rewrite <- app_assoc.
Qed.

Lemma main_single_layout_witness :
  main Sample.args_single Sample.edt Sample.passed =
    (inr (),
     put "out.bin" [x01; x02; xff; xff; x0a; x0b; x0c; x0d] Sample.passed).
Proof.
  apply (main_single_layout Sample.args_single Sample.edt Sample.passed
           Sample.table 0 4 4 4 Sample.boot Sample.app);
    try reflexivity; try discriminate.
Defined.

(** A run with a secondary image: under the same conditions, with the
    secondary image a file other than the artifact that fits image-1 and the
    primary image ending at or before the offset of image-1, [main] returns
    and the artifact is the one of the run without a secondary image,
    followed by 0xFF up to the offset of image-1 and the secondary image. *)
Theorem main_dual_layout
    (args : Args) (edt : EDT) (w : World) (pm : PartitionMap)
    (secondary : string) (om o0 o1 sm s0 s1 : Z) (bb b0 b1 : list byte) :
  arg_secondary args = Some secondary →
  find_slots edt true = inr pm →
  unlink_fault w !! arg_output args = None →
  offsets pm !! "mcuboot" = Some om → sizes pm !! "mcuboot" = Some sm →
  offsets pm !! "image-0" = Some o0 → sizes pm !! "image-0" = Some s0 →
  offsets pm !! "image-1" = Some o1 → sizes pm !! "image-1" = Some s1 →
  path_join (path_join (arg_bootdir args) "zephyr") "zephyr.bin"
    ≠ arg_output args →
  arg_primary args ≠ arg_output args →
  secondary ≠ arg_output args →
  files w !! path_join (path_join (arg_bootdir args) "zephyr") "zephyr.bin"
    = Some bb →
  files w !! arg_primary args = Some b0 →
  files w !! secondary = Some b1 →
  0 ≤ om →
  om + Z.of_nat (length bb) ≤ o0 →
  o0 + Z.of_nat (length b0) ≤ o1 →
  Z.of_nat (length bb) ≤ sm →
  Z.of_nat (length b0) ≤ s0 →
  Z.of_nat (length b1) ≤ s1 →
  main args edt w =
    (inr (),
     put (arg_output args)
         ((padding om ++ bb ++
           padding (o0 - (om + Z.of_nat (length bb))) ++ b0) ++
          padding (o1 - (o0 + Z.of_nat (length b0))) ++ b1) w).
Proof.
  intros Hsec Hfind Hfault Hom Hsm Ho0 Hs0 Ho1 Hs1 Hnb Hn0 Hn1 Hfb Hf0 Hf1
         Hpos Hgap0 Hgap1 Hfitb Hfit0 Hfit1.
  rewrite main_eq, Hsec. rewrite bool_decide_eq_true_2 by done.
  rewrite Hfind, Hfault. cbv zeta.
  set (out := {| slots := pm; output := arg_output args |}).
  unfold mbind, IO_bind, bind.
  change (arg_output args) with (output out) at 1.
  rewrite (add_image_first out _ "mcuboot" om sm bb) by done.
  rewrite (add_image_next out _ "image-0" o0 s0 b0);
    rewrite ?padding_app_length; try done.
  assert (Z.of_nat (length ((padding om ++ bb) ++
            padding (o0 - (om + Z.of_nat (length bb))) ++ b0)) =
          o0 + Z.of_nat (length b0)) as Hlen.
  { rewrite length_app, Nat2Z.inj_add, !padding_app_length; lia. }
  rewrite (add_image_next out _ "image-1" o1 s1 b1);
    rewrite ?Hlen; try done.
  by rewrite <- (app_assoc (padding om) bb).
Qed.

Lemma main_dual_layout_witness :
  main Sample.args Sample.edt Sample.passed =
    (inr (),
     put "out.bin"
       [x01; x02; xff; xff; x0a; x0b; x0c; x0d; xff; xff; x1a; x1b; x1c]
       Sample.passed).
Proof.
  apply (main_dual_layout Sample.args Sample.edt Sample.passed
           Sample.table "upd.bin" 0 4 10 4 4 4
           Sample.boot Sample.app Sample.upd);
    try reflexivity; try discriminate.
Defined.

(** A failed run leaves what it had written: when the bootloader is placed
    and the primary image is longer than the size of image-0, [main] raises
    "Image ... is too large" for the primary image, and the artifact is left
    with the bootloader at its offset and 0xFF up to the offset of image-0;
    the old artifact is gone all the same. *)
Theorem main_oversized_primary
    (args : Args) (edt : EDT) (w : World) (pm : PartitionMap)
    (om o0 sm s0 : Z) (bb b0 : list byte) :
  find_slots edt (bool_decide (arg_secondary args ≠ None)) = inr pm →
  unlink_fault w !! arg_output args = None →
  offsets pm !! "mcuboot" = Some om → sizes pm !! "mcuboot" = Some sm →
  offsets pm !! "image-0" = Some o0 → sizes pm !! "image-0" = Some s0 →
  path_join (path_join (arg_bootdir args) "zephyr") "zephyr.bin"
    ≠ arg_output args →
  arg_primary args ≠ arg_output args →
  files w !! path_join (path_join (arg_bootdir args) "zephyr") "zephyr.bin"
    = Some bb →
  files w !! arg_primary args = Some b0 →
  0 ≤ om →
  om + Z.of_nat (length bb) ≤ o0 →
  Z.of_nat (length bb) ≤ sm →
  Z.of_nat (length b0) > s0 →
  main args edt w =
    (inl (OversizedImageError (arg_primary args)),
     put (arg_output args)
         (padding om ++ bb ++ padding (o0 - (om + Z.of_nat (length bb)))) w).
Proof.
  intros Hfind Hfault Hom Hsm Ho0 Hs0 Hnb Hn0 Hfb Hf0 Hpos Hgap Hfitb Hbig.
  rewrite main_eq, Hfind, Hfault. cbv zeta.
  set (out := {| slots := pm; output := arg_output args |}).
  unfold mbind, IO_bind, bind.
  change (arg_output args) with (output out) at 1.
  rewrite (add_image_first out _ "mcuboot" om sm bb) by done.
  rewrite add_image_eq. cbv zeta. simpl slots. simpl output.
  rewrite Ho0, Hs0, content_put, padding_app_length by done.
  rewrite bool_decide_eq_false_2 by lia.
  rewrite files_put_ne, files_put_ne, Hf0 by done.
  rewrite bool_decide_eq_true_2 by done.
  by rewrite put_put, <- app_assoc.
Qed.

Lemma main_oversized_primary_witness :
  let args :=
    {| arg_bootdir := "build"; arg_primary := "big.bin";
       arg_secondary := None; arg_output := "out.bin" |} in
  main args Sample.edt Sample.passed =
    (inl (OversizedImageError "big.bin"),
     put "out.bin" [x01; x02; xff; xff] Sample.passed).
Proof.
  intros args.
  apply (main_oversized_primary args Sample.edt Sample.passed
           Sample.table 0 4 4 4 Sample.boot Sample.big);
    try reflexivity; try discriminate.
Defined.

(** ** find_board_name *)

Lemma prefix_true p s : String.prefix p s = true ↔ ∃ rest, s = p +:+ rest.
Proof.
  revert s. induction p as [|a p IH]; intros s.
  - split; [intros _; by exists s|]. intros _. by destruct s.
  - destruct s as [|b s]; simpl.
    + split; [done|]. by intros [rest Hrest].
    + destruct (ascii_dec a b) as [->|Hne].
      * rewrite IH. split.
        -- intros [rest ->]. by exists rest.
        -- intros [rest [= ->]]. by exists rest.
      * split; [done|]. intros [rest [= ? _]]. done.
Qed.

Lemma config_board_value rest :
  split_once equals_sign ("CONFIG_BOARD=" +:+ rest) !! 1%nat = Some rest.
Proof. vm_compute. reflexivity. Qed.

Lemma find_board_name_cons bootdir line lines :
  find_board_name bootdir (line :: lines) =
    if String.prefix "CONFIG_BOARD=" line then
      match split_once equals_sign line !! 1%nat with
      | Some value => inr (strip [quote] value)
      | None => inl IndexError
      end
    else find_board_name bootdir lines.
Proof. done. Qed.

(** [find_board_name] raises exactly when no line starts with
    "CONFIG_BOARD=", and then the "Expected CONFIG_BOARD line" exception that
    names the configuration file; the subscript after the split can never
    fail. *)
Theorem find_board_name_fails
    (bootdir : string) (lines : list string) (e : exn) :
  find_board_name bootdir lines = inl e ↔
  Forall (λ line, String.prefix "CONFIG_BOARD=" line = false) lines ∧
  e = Exception ("Expected CONFIG_BOARD line in " +:+ dot_config bootdir).
Proof.
  induction lines as [|line lines IH]; simpl.
  - split; [intros [= <-]; by split|]. by intros [_ ->].
  - destruct (String.prefix "CONFIG_BOARD=" line) eqn:Hp.
    + apply prefix_true in Hp as [rest ->]. rewrite config_board_value.
      split; [done|]. intros [Hall _].
      apply Forall_cons in Hall as [Hno _].
      assert (String.prefix "CONFIG_BOARD=" ("CONFIG_BOARD=" +:+ rest) = true)
        as Hyes by (apply prefix_true; by exists rest).
      congruence.
    + rewrite IH. split.
      * intros [Hall ->]. split; [by constructor|done].
      * intros [Hall ->]. apply Forall_cons in Hall as [_ Hall]. done.
Qed.

Lemma find_board_name_fails_witness :
  find_board_name "build" ["# a build"; "CONFIG_ARM=y"] =
    inl (Exception "Expected CONFIG_BOARD line in build/zephyr/.config").
Proof.
  apply (proj2 (find_board_name_fails "build" ["# a build"; "CONFIG_ARM=y"] _)).
  split; [|reflexivity]. repeat constructor.
Defined.

Lemma find_board_name_app bootdir before after value :
  Forall (λ line, String.prefix "CONFIG_BOARD=" line = false) before →
  find_board_name bootdir
    (before ++ ("CONFIG_BOARD=" +:+ value) :: after) =
    inr (strip [quote] value).
Proof.
  intros Hno. induction Hno as [|line before Hline Hno IH].
  - rewrite app_nil_l, find_board_name_cons.
    assert (String.prefix "CONFIG_BOARD=" ("CONFIG_BOARD=" +:+ value) = true)
      as -> by (apply prefix_true; by exists value).
    by rewrite config_board_value.
  - by rewrite <- app_comm_cons, find_board_name_cons, Hline.
Qed.

(** [find_board_name] answers from the first line that starts with
    "CONFIG_BOARD=": what follows that prefix, up to the end of the line and
    with further "=" signs left in, stripped of double quotes at both ends.
    Lines before it that do not start so, and all lines after it, have no
    say. *)
Theorem find_board_name_first_match
    (bootdir : string) (before after : list string) (value : string) :
  Forall (λ line, String.prefix "CONFIG_BOARD=" line = false) before →
  find_board_name bootdir
    (before ++ ("CONFIG_BOARD=" +:+ value) :: after) =
    inr (strip [quote] value).
Proof. apply find_board_name_app. Qed.

Lemma find_board_name_first_match_witness :
  find_board_name "build"
    (["# a build"; "CONFIG_ARM=y"] ++
     ("CONFIG_BOARD=" +:+ "frdm_k64f") :: ["CONFIG_BOARD=other"]) =
    inr "frdm_k64f".
Proof.
  apply (find_board_name_first_match "build" ["# a build"; "CONFIG_ARM=y"]
           ["CONFIG_BOARD=other"] "frdm_k64f").
  repeat constructor.
Defined.

Lemma lstrip_app_keep chars s t c :
  c ∉ chars → lstrip chars (s +:+ String c t) = lstrip chars s +:+ String c t.
Proof.
  intros Hc. induction s as [|a s IH]; simpl.
  - by rewrite bool_decide_eq_false_2.
  - case_bool_decide; [exact IH|done].
Qed.

Lemma rstrip_app_keep chars s c :
  c ∉ chars → rstrip chars (s +:+ String c "") = s +:+ String c "".
Proof.
  intros Hc. induction s as [|a s IH]; simpl.
  - by rewrite bool_decide_eq_false_2.
  - change (String.append s (String c "")) with (s +:+ String c "").
    rewrite IH. by destruct s.
Qed.

Lemma rstrip_app_drop chars s c :
  c ∈ chars → rstrip chars (s +:+ String c "") = rstrip chars s.
Proof.
  intros Hc. induction s as [|a s IH]; simpl.
  - by rewrite bool_decide_eq_true_2.
  - change (String.append s (String c "")) with (s +:+ String c "").
    by rewrite IH.
Qed.

Lemma newline_not_quote : newline ∉ [quote].
Proof. intros Hin. apply list_elem_of_singleton in Hin. discriminate. Qed.

(** The lines of a file end with a newline, and a newline is not a quote:
    for such a line [strip] finds nothing to strip at the end.  The name
    [find_board_name] returns then loses the quotes it starts with and keeps
    all the rest, a closing quote and the newline included. *)
Theorem find_board_name_keeps_line_end
    (bootdir : string) (before after : list string) (value : string) :
  Forall (λ line, String.prefix "CONFIG_BOARD=" line = false) before →
  find_board_name bootdir
    (before ++ ("CONFIG_BOARD=" +:+ value +:+ String newline "") :: after) =
    inr (lstrip [quote] value +:+ String newline "").
Proof.
  intros Hno. rewrite find_board_name_app by done. f_equal. unfold strip.
  rewrite lstrip_app_keep by apply newline_not_quote.
  apply rstrip_app_keep, newline_not_quote.
Qed.

Lemma find_board_name_keeps_line_end_witness :
  find_board_name "build"
    (["CONFIG_ARM=y"] ++
     ("CONFIG_BOARD=" +:+
        String quote ("frdm_k64f" +:+ String quote "") +:+ String newline "")
     :: []) =
    inr ("frdm_k64f" +:+ String quote (String newline "")).
Proof.
  apply (find_board_name_keeps_line_end "build" ["CONFIG_ARM=y"] []
           (String quote ("frdm_k64f" +:+ String quote ""))).
  repeat constructor.
Defined.

(** Only a last line without a line end gives the bare name: a name that
    neither starts nor ends with a double quote, written between double
    quotes on such a line, is returned as it is. *)
Theorem find_board_name_bare
    (bootdir : string) (before : list string) (name : string) :
  Forall (λ line, String.prefix "CONFIG_BOARD=" line = false) before →
  lstrip [quote] name = name →
  rstrip [quote] name = name →
  find_board_name bootdir
    (before ++ [("CONFIG_BOARD=" +:+ String quote (name +:+ String quote ""))])
    = inr name.
Proof.
  intros Hno Hl Hr. rewrite find_board_name_app by done. f_equal.
  unfold strip. simpl lstrip.
  destruct name as [|a name]; [done|].
  assert (a ∉ [quote]) as Ha.
  { intros Hin. simpl in Hl. rewrite bool_decide_eq_true_2 in Hl by done.
    assert (String.length (lstrip [quote] name) ≤ String.length name)%nat
      as Hlen.
    { clear. induction name as [|b name IH]; simpl; [done|].
      case_bool_decide; simpl; lia. }
    rewrite Hl in Hlen. simpl in Hlen. lia. }
  assert (lstrip [quote] (String a name +:+ String quote "") =
          String a name +:+ String quote "") as ->.
  { change (String a name +:+ String quote "")
      with (String a (name +:+ String quote "")).
    simpl. by rewrite bool_decide_eq_false_2. }
  rewrite rstrip_app_drop by by left. exact Hr.
Qed.

Lemma find_board_name_bare_witness :
  find_board_name "build"
    (["CONFIG_ARM=y"] ++
     [("CONFIG_BOARD=" +:+ String quote ("frdm_k64f" +:+ String quote ""))]) =
    inr "frdm_k64f".
Proof.
  apply (find_board_name_bare "build" ["CONFIG_ARM=y"] "frdm_k64f");
    [repeat constructor | reflexivity | reflexivity].
Defined.
